(** * GridApplication: grid generation and point bucketizing

    A shallow embedding of [make_Grid.py] (the grid builder) and of
    [agents_to_cell_csvs.py] (the point-to-cell bucketizer), with the
    properties of the repository's specification stated and settled on it.

    Conventions of the embedding.
    - In the scan and in the join Python floats are idealised as exact
      rationals [Q]; [math.floor] and [math.ceil] are [Qfloor] and
      [Qceiling]; a float division by a zero divisor raises
      [ZeroDivisionError].  What is proved on this model is about the
      structure of the scan and holds relative to the origin, the counts
      and the footprints as computed.
    - The arithmetic of the anchoring itself is also given on IEEE 754
      binary64 floats, as Python computes it (module [Float64]): what
      depends on rounding is settled there.
    - Python integers are [Z]; [range(n)] is [seqZ 0 n] (empty for [n <= 0]).
    - Exceptions are values of [PyError] carried by the [result] monad.
    - shapely, pyproj and geopandas are external libraries: their operations
      are the fields of the [Geometry] interface, and the facts about them
      that a proof needs are explicit hypotheses.
    - The file system is a finite map from paths to nodes. *)

From Stdlib Require Import ZArith QArith Qround Lia Lqa List.
From Stdlib Require Import Sorting.Sorted.
From Stdlib Require Import Floats.SpecFloat.
From stdpp Require Import gmap strings list fin_maps pretty.

Local Open Scope Z_scope.

(** ** Exceptions *)

Inductive PyError : Type :=
  | ZeroDivisionError
  | TypeError
  | KeyError
  | ValueError
  | FileExistsError
  | FileNotFoundError
  | IsADirectoryError
  | OverflowError.

Inductive result (A : Type) : Type :=
  | Ok (a : A)
  | Raise (e : PyError).
Arguments Ok {A} a.
Arguments Raise {A} e.

Global Instance result_ret : MRet result := fun _ a => Ok a.
Global Instance result_bind : MBind result := fun _ _ f m =>
  match m with
  | Ok a => f a
  | Raise e => Raise e
  end.

(** Whether a run has ended normally. *)
Definition is_ok {A : Type} (r : result A) : bool :=
  match r with
  | Ok _ => true
  | Raise _ => false
  end.

(** [for x in xs: st = body(st, x)], stopping at the first exception. *)
Fixpoint for_each {S X : Type} (body : S -> X -> result S)
    (xs : list X) (st : S) : result S :=
  match xs with
  | [] => Ok st
  | x :: xs' => st' ← body st x; for_each body xs' st'
  end.

(** ** The geometry library *)

Inductive GeomType : Type :=
  | Polygon
  | MultiPolygon
  | OtherGeom.

(** [Transformer.from_crs(src, dst, always_xy=True)]. *)
Record Transformer : Type := from_crs { src_epsg : Z; dst_epsg : Z }.

Class Geometry (G : Type) : Type := {
  geom_type : G -> GeomType;
  (** [box(minx, miny, maxx, maxy)] *)
  box : Q -> Q -> Q -> Q -> G;
  (** [a.intersects(b)] *)
  intersects : G -> G -> bool;
  (** [a.intersection(b)] *)
  intersection : G -> G -> G;
  is_empty : G -> bool;
  area : G -> Q;
  (** [g.bounds], as [(minx, miny, maxx, maxy)] *)
  bounds : G -> Q * Q * Q * Q;
  (** [g.centroid], as [(x, y)] *)
  centroid : G -> Q * Q;
  (** coordinates of a polygon or multi-polygon mapped through a transformer,
      exterior ring and interior rings alike *)
  transform : Transformer -> G -> G;
  (** a single point mapped through a transformer *)
  transform_xy : Transformer -> Q * Q -> Q * Q;
  (** [Point(x, y).within(g)] *)
  within : Q * Q -> G -> bool;
}.

(** ** make_Grid.py *)

Module MakeGrid.

(** [best_utm]: the zone number and the EPSG code handed to
    [CRS.from_epsg]. *)
Definition utm_zone (lon : Q) : Z := Qfloor ((lon + 180) / 6) + 1.

Definition best_utm (lon lat : Q) : Z :=
  let zone := utm_zone lon in
  if Qle_bool 0 lat then 32600 + zone else 32700 + zone.

(** [utm.to_string()] *)
Definition crs_to_string (epsg : Z) : string := "EPSG:" +:+ pretty epsg.

Record Feature (G : Type) : Type := mkFeature {
  cell_id : Z;
  row : Z;
  col : Z;
  utm_crs : option string;
  area_m2 : Q;
  geometry : G;
}.
Arguments mkFeature {G}.
Arguments cell_id {G}.
Arguments row {G}.
Arguments col {G}.
Arguments utm_crs {G}.
Arguments area_m2 {G}.
Arguments geometry {G}.

(** The variables the double loop of [main] updates. *)
Record LoopState (G : Type) : Type := mkLoop {
  features_metric : list (Feature G);
  features_wgs84 : list (Feature G);
  next_cell_id : Z;
}.
Arguments mkLoop {G}.
Arguments features_metric {G}.
Arguments features_wgs84 {G}.
Arguments next_cell_id {G}.

Section Builder.
Context {G : Type} `{Geometry G}.

Definition polygonal (g : G) : bool :=
  match geom_type g with
  | Polygon | MultiPolygon => true
  | OtherGeom => false
  end.

(** [project_poly] and [to_wgs_geom] on a geometry that has coordinates;
    module [Rings] below has them ring by ring, with the [TypeError] of a
    ring without coordinates. *)
Definition project_poly (geom : G) (transformer : Transformer) : result G :=
  if polygonal geom then Ok (transform transformer geom) else Raise TypeError.

Definition to_wgs_geom (geom : G) (transformer : Transformer) : result G :=
  if polygonal geom then Ok (transform transformer geom) else Raise TypeError.

(** The planar anchoring of [main], lines 81 to 85. *)
Definition grid_start (CELL lo : Q) : Q := inject_Z (Qfloor (lo / CELL)) * CELL.
Definition grid_count (CELL start hi : Q) : Z := Qceiling ((hi - start) / CELL).

(** The square footprint of the cell at a row and a column. *)
Definition cell_x0 (CELL start_x : Q) (c : Z) : Q := start_x + inject_Z c * CELL.
Definition cell_y0 (CELL start_y : Q) (r : Z) : Q := start_y + inject_Z r * CELL.
Definition footprint (CELL start_x start_y : Q) (r c : Z) : G :=
  let x0 := cell_x0 CELL start_x c in
  let y0 := cell_y0 CELL start_y r in
  box x0 y0 (x0 + CELL) (y0 + CELL).

(** The body of the inner loop, lines 97 to 118. *)
Definition cell_step (CELL : Q) (utm : Z) (to_wgs : Transformer) (aoi_m : G)
    (start_x start_y : Q) (r : Z) (st : LoopState G) (c : Z)
    : result (LoopState G) :=
  let cell := footprint CELL start_x start_y r c in
  if negb (intersects aoi_m cell) then Ok st else
  let inter := intersection cell aoi_m in
  if is_empty inter then Ok st else
  inter_w ← to_wgs_geom inter to_wgs;
  Ok (mkLoop
        (features_metric st ++
           [mkFeature (next_cell_id st) r c (Some (crs_to_string utm))
                      (area inter) inter])
        (features_wgs84 st ++
           [mkFeature (next_cell_id st) r c None (area inter) inter_w])
        (next_cell_id st + 1)).

(** The body of the outer loop, lines 92 to 118. *)
Definition row_step (CELL : Q) (utm : Z) (to_wgs : Transformer) (aoi_m : G)
    (start_x start_y : Q) (cols : Z) (st : LoopState G) (r : Z)
    : result (LoopState G) :=
  for_each (cell_step CELL utm to_wgs aoi_m start_x start_y r) (seqZ 0 cols) st.

(** The four components of [aoi_m.bounds]. *)
Definition minx_of (g : G) : Q := fst (fst (fst (bounds g))).
Definition miny_of (g : G) : Q := snd (fst (fst (bounds g))).
Definition maxx_of (g : G) : Q := snd (fst (bounds g)).
Definition maxy_of (g : G) : Q := snd (bounds g).

Definition origin_x (CELL : Q) (aoi_m : G) : Q := grid_start CELL (minx_of aoi_m).
Definition origin_y (CELL : Q) (aoi_m : G) : Q := grid_start CELL (miny_of aoi_m).
Definition n_cols (CELL : Q) (aoi_m : G) : Z :=
  grid_count CELL (origin_x CELL aoi_m) (maxx_of aoi_m).
Definition n_rows (CELL : Q) (aoi_m : G) : Z :=
  grid_count CELL (origin_y CELL aoi_m) (maxy_of aoi_m).

(** Lines 81 to 118 of [main]: from the projected AOI to the two feature
    lists.  [CELL] is the constant [100.0] in the source. *)
Definition build_grid (CELL : Q) (utm : Z) (to_wgs : Transformer) (aoi_m : G)
    : result (LoopState G) :=
  if Qeq_bool CELL 0 then Raise ZeroDivisionError else
  let start_x := origin_x CELL aoi_m in
  let start_y := origin_y CELL aoi_m in
  let cols := n_cols CELL aoi_m in
  let rows := n_rows CELL aoi_m in
  for_each (row_step CELL utm to_wgs aoi_m start_x start_y cols)
           (seqZ 0 rows) (mkLoop [] [] 0).

(** The coordinate system [main] selects and the AOI it projects, for an
    AOI that has a centroid (an empty geometry has none, and the run stops
    at [int] of a NaN). *)
Definition chosen_utm (aoi_wgs : G) : Z :=
  let cent := centroid aoi_wgs in best_utm (fst cent) (snd cent).
Definition projected_aoi (aoi_wgs : G) : G :=
  transform (from_crs 4326 (chosen_utm aoi_wgs)) aoi_wgs.

(** [main], from the loaded AOI to the two feature collections it writes. *)
Definition grid_main (CELL : Q) (aoi_wgs : G)
    : result (list (Feature G) * list (Feature G)) :=
  let utm := chosen_utm aoi_wgs in
  let to_utm := from_crs 4326 utm in
  let to_wgs := from_crs utm 4326 in
  aoi_m ← project_poly aoi_wgs to_utm;
  st ← build_grid CELL utm to_wgs aoi_m;
  Ok (features_metric st, features_wgs84 st).

Definition main (aoi_wgs : G) := grid_main 100 aoi_wgs.

(** Position of a feature in the scan, and the row-major order on
    positions: increasing row, then increasing column. *)
Definition pos (f : Feature G) : Z * Z := (row f, col f).

Definition scan_before (p q : Z * Z) : Prop :=
  fst p < fst q \/ (fst p = fst q /\ snd p < snd q).

(** What the grid builder promises of one emitted cell. *)
Definition clipped_cell (CELL : Q) (aoi_m : G) (f : Feature G) : Prop :=
  let sq := footprint CELL (origin_x CELL aoi_m) (origin_y CELL aoi_m)
                      (row f) (col f) in
  is_empty (geometry f) = false /\
  geometry f = intersection sq aoi_m /\
  intersects aoi_m sq = true /\
  polygonal (geometry f) = true.

(** A fact about shapely that the point-in-cell argument uses: a point
    within a polygonal piece clipped out of a proper box lies strictly
    inside that box. *)
Definition clip_interior_law : Prop :=
  forall (p : Q * Q) (x0 y0 x1 y1 : Q) (a : G),
    (x0 < x1)%Q -> (y0 < y1)%Q ->
    polygonal (intersection (box x0 y0 x1 y1) a) = true ->
    within p (intersection (box x0 y0 x1 y1) a) = true ->
    (x0 < fst p)%Q /\ (fst p < x1)%Q /\ (y0 < snd p)%Q /\ (snd p < y1)%Q.

(** A point on one of the lines of the grid: the shared boundaries of
    adjacent cells all lie on these lines. *)
Definition on_grid_line (CELL : Q) (aoi_m : G) (p : Q * Q) : Prop :=
  exists k : Z,
    (fst p == origin_x CELL aoi_m + inject_Z k * CELL)%Q \/
    (snd p == origin_y CELL aoi_m + inject_Z k * CELL)%Q.

(** The grid the bucketizer reads from the metric output. *)
Definition metric_cells (fm : list (Feature G)) : list (Z * G) :=
  map (fun f => (cell_id f, geometry f)) fm.

(** The invariant of the double loop: identifiers are handed out in
    sequence, both lists run in step, the emitted positions increase in
    scan order and stay below a bound that moves with the scan, and every
    emitted cell is a clipped cell. *)
Record scan_inv (CELL : Q) (aoi_m : G) (bound : Z * Z -> Prop)
    (st : LoopState G) : Prop := mk_scan_inv {
  inv_ids_m : cell_id <$> features_metric st = seqZ 0 (next_cell_id st);
  inv_ids_w : cell_id <$> features_wgs84 st = seqZ 0 (next_cell_id st);
  inv_next : 0 <= next_cell_id st;
  inv_pos_w : pos <$> features_wgs84 st = pos <$> features_metric st;
  inv_sorted : StronglySorted scan_before (pos <$> features_metric st);
  inv_bound : Forall bound (pos <$> features_metric st);
  inv_clip : Forall (clipped_cell CELL aoi_m) (features_metric st);
}.

End Builder.

Section Emission.
Context {G : Type} `{Geometry G}.

(** The two guards of the inner loop, lines 99 to 103: a footprint goes on
    to be emitted when it intersects the AOI and its clip is not empty. *)
Definition passes_guards (CELL : Q) (aoi_m : G) (r c : Z) : bool :=
  let sq := footprint CELL (origin_x CELL aoi_m) (origin_y CELL aoi_m) r c in
  intersects aoi_m sq && negb (is_empty (intersection sq aoi_m)).

(** The clip of the footprint at a position. *)
Definition clip_at (CELL : Q) (aoi_m : G) (r c : Z) : G :=
  intersection (footprint CELL (origin_x CELL aoi_m) (origin_y CELL aoi_m) r c)
               aoi_m.

(** The positions the double loop visits. *)
Definition in_grid (CELL : Q) (aoi_m : G) (r c : Z) : Prop :=
  0 <= r < n_rows CELL aoi_m /\ 0 <= c < n_cols CELL aoi_m.

(** A feature of the metric list and the feature of the WGS84 list written
    with it, lines 105 to 117. *)
Definition written_together (utm : Z) (to_wgs : Transformer)
    (m w : Feature G) : Prop :=
  cell_id w = cell_id m /\ row w = row m /\ col w = col m /\
  area_m2 m = area (geometry m) /\ area_m2 w = area (geometry m) /\
  utm_crs m = Some (crs_to_string utm) /\ utm_crs w = None /\
  geometry w = transform to_wgs (geometry m).

(** The positions that pass the guards, in the order of the scan: what the
    double loop emits, written as a comprehension. *)
Definition row_positions (CELL : Q) (aoi_m : G) (r : Z) : list (Z * Z) :=
  flat_map (fun c => if passes_guards CELL aoi_m r c then [(r, c)] else [])
           (seqZ 0 (n_cols CELL aoi_m)).

Definition scan_positions (CELL : Q) (aoi_m : G) : list (Z * Z) :=
  flat_map (row_positions CELL aoi_m) (seqZ 0 (n_rows CELL aoi_m)).

End Emission.

End MakeGrid.

(** ** The anchoring in binary64

    Lines 82 to 85 of [make_Grid.py] and the corner of a footprint, line
    97, as Python computes them: on IEEE 754 binary64 floats, every
    operation rounded to the nearest float, ties to even.  The floats are
    the [spec_float] of the standard library at 53 bits of precision;
    integers are unbounded. *)

Module Float64.

Definition prec : Z := 53.
Definition emax : Z := 1024.

(** The float [m * 2^e], rounded. *)
Definition b64 (m e : Z) : spec_float := binary_normalize prec emax m e false.

(** [float(n)] of an integer, as an operand of mixed arithmetic: the
    nearest float, and [OverflowError] when the integer is too large. *)
Definition of_int (n : Z) : result spec_float :=
  match b64 n 0 with
  | S754_infinity _ => Raise OverflowError
  | x => Ok x
  end.

(** [a / b] *)
Definition truediv (a b : spec_float) : result spec_float :=
  match b with
  | S754_zero _ => Raise ZeroDivisionError
  | _ => Ok (SFdiv prec emax a b)
  end.

(** [math.floor(x)] and [math.ceil(x)]: an exact integer; a NaN raises
    [ValueError] and an infinity [OverflowError]. *)
Definition floor (x : spec_float) : result Z :=
  match x with
  | S754_zero _ => Ok 0
  | S754_infinity _ => Raise OverflowError
  | S754_nan => Raise ValueError
  | S754_finite s m e => Ok (Z.shiftl (cond_Zopp s (Zpos m)) e)
  end.

Definition ceil (x : spec_float) : result Z :=
  match x with
  | S754_zero _ => Ok 0
  | S754_infinity _ => Raise OverflowError
  | S754_nan => Raise ValueError
  | S754_finite s m e => Ok (- Z.shiftl (cond_Zopp (negb s) (Zpos m)) e)
  end.

(** [n * x] for an integer [n] and a float [x]. *)
Definition int_mul (n : Z) (x : spec_float) : result spec_float :=
  f ← of_int n; Ok (SFmul prec emax f x).

(** Lines 82 and 83: [math.floor(lo / CELL) * CELL]. *)
Definition grid_start (CELL lo : spec_float) : result spec_float :=
  q ← truediv lo CELL; k ← floor q; int_mul k CELL.

(** Lines 84 and 85: [int(math.ceil((hi - start) / CELL))]. *)
Definition grid_count (CELL start hi : spec_float) : result Z :=
  q ← truediv (SFsub prec emax hi start) CELL; ceil q.

(** Lines 95 and 97: [start + c * CELL], the lower corner of the footprint
    at index [c]; its upper corner, line 98, is that plus [CELL]. *)
Definition cell_lo (CELL start : spec_float) (c : Z) : result spec_float :=
  w ← int_mul c CELL; Ok (SFadd prec emax start w).

Definition cell_hi (CELL start : spec_float) (c : Z) : result spec_float :=
  lo ← cell_lo CELL start c; Ok (SFadd prec emax lo CELL).

End Float64.

(** ** The coordinate-system tag

    [re.search(r"epsg\s*:\s*(\d+)", text, flags=re.IGNORECASE)], the search
    both [parse_epsg_from_props] (agents_to_cell_csvs.py) and [parse_epsg]
    (make_grid_to_csv.py) run, on ASCII text: a character of a [string]
    stands for the ASCII character of its code.  The classes of the pattern
    exclude one another, so the greedy repetitions never have to give a
    character back. *)

Module CrsTag.

(** [\s] on ASCII: tab to carriage return, the four separators 28 to 31,
    and the space. *)
Definition is_space (a : Ascii.ascii) : bool :=
  let n := Ascii.N_of_ascii a in
  ((9 <=? n)%N && (n <=? 13)%N) || ((28 <=? n)%N && (n <=? 32)%N).

(** [\d] on ASCII. *)
Definition is_digit (a : Ascii.ascii) : bool :=
  let n := Ascii.N_of_ascii a in (48 <=? n)%N && (n <=? 57)%N.

(** A lower-case letter of the pattern, given by its code, under
    [re.IGNORECASE]: the letter or its upper case. *)
Definition matches_letter (lower : N) (a : Ascii.ascii) : bool :=
  let n := Ascii.N_of_ascii a in (n =? lower)%N || (n =? lower - 32)%N.

(** The codes of [e], [p], [s], [g] and of the colon. *)
Definition code_e : N := 101.
Definition code_p : N := 112.
Definition code_s : N := 115.
Definition code_g : N := 103.
Definition code_colon : N := 58.

(** [\s*] *)
Fixpoint skip_spaces (s : string) : string :=
  match s with
  | String a s' => if is_space a then skip_spaces s' else s
  | EmptyString => s
  end.

(** The longest run of digits at the head: what [\d+] takes when it is not
    empty. *)
Fixpoint leading_digits (s : string) : string :=
  match s with
  | String a s' => if is_digit a then String a (leading_digits s') else ""
  | EmptyString => ""
  end.

(** The pattern tried at the head of the text; the group is returned. *)
Definition match_here (s : string) : option string :=
  match s with
  | String c1 (String c2 (String c3 (String c4 rest))) =>
      if matches_letter code_e c1 && matches_letter code_p c2 &&
         matches_letter code_s c3 && matches_letter code_g c4
      then
        match skip_spaces rest with
        | String a rest' =>
            if (Ascii.N_of_ascii a =? code_colon)%N then
              match leading_digits (skip_spaces rest') with
              | "" => None
              | ds => Some ds
              end
            else None
        | EmptyString => None
        end
      else None
  | _ => None
  end.

(** [re.search]: the leftmost position at which the pattern matches. *)
Fixpoint search (s : string) : option string :=
  match match_here s with
  | Some ds => Some ds
  | None =>
      match s with
      | String _ s' => search s'
      | EmptyString => None
      end
  end.

(** [int(m.group(1))] on a run of ASCII digits. *)
Fixpoint int_from (acc : Z) (ds : string) : Z :=
  match ds with
  | String a ds' => int_from (10 * acc + (Z.of_N (Ascii.N_of_ascii a) - 48)) ds'
  | EmptyString => acc
  end.

Definition int_of_digits (ds : string) : Z := int_from 0 ds.

(** [int(m.group(1)) if m else None] *)
Definition epsg_in (text : string) : option Z :=
  int_of_digits <$> search text.

(** A text of white space only. *)
Fixpoint blank (s : string) : bool :=
  match s with
  | String a s' => is_space a && blank s'
  | EmptyString => true
  end.

(** The four letters of a tag, in either case. *)
Definition epsg_letters (c1 c2 c3 c4 : Ascii.ascii) : bool :=
  matches_letter code_e c1 && matches_letter code_p c2 &&
  matches_letter code_s c3 && matches_letter code_g c4.

End CrsTag.

(** ** make_grid_to_csv.py *)

Module GridCsv.

Definition parse_epsg (crs_str : string) : option Z :=
  if bool_decide (crs_str = "") then None else CrsTag.epsg_in crs_str.

(** [str(props.get("utm_crs", ""))] of a feature. *)
Definition utm_crs_text {G : Type} (f : MakeGrid.Feature G) : string :=
  match MakeGrid.utm_crs f with
  | Some tag => tag
  | None => ""
  end.

(** The first feature whose tag parses to a code that is not zero. *)
Fixpoint get_utm_from_features {G : Type} (features : list (MakeGrid.Feature G))
    : option Z :=
  match features with
  | [] => None
  | f :: features' =>
      match parse_epsg (utm_crs_text f) with
      | Some epsg => if epsg =? 0 then get_utm_from_features features' else Some epsg
      | None => get_utm_from_features features'
      end
  end.

End GridCsv.

(** ** agents_to_cell_csvs.py *)

Module CellCsvs.

(** A row of the trajectory table, reduced to the four columns the script
    reads: agent, time, latitude and longitude. *)
Record PointRecord : Type := mkPoint {
  agent : string;
  timestamp : Z;
  latitude : Q;
  longitude : Q;
}.

Record DataFrame : Type := mkFrame {
  columns : list string;
  records : list PointRecord;
}.

(** The grid as [gpd.read_file] and [ensure_grid_crs] deliver it: its
    attribute columns, its coordinate system and, per cell, the value of the
    identifier field and the polygon. *)
Record Grid (G : Type) : Type := mkGrid {
  grid_columns : list string;
  grid_crs : Z;
  grid_cells : list (Z * G);
}.
Arguments mkGrid {G}.
Arguments grid_columns {G}.
Arguments grid_crs {G}.
Arguments grid_cells {G}.

Record Args : Type := mkArgs {
  out_root : list string;
  bucket_id : Z;
  grid_id_field : string;
  agent_id_field : string;
  latitude_field : string;
  longitude_field : string;
  output_filename : option string;
}.

(** A row of [joined], restricted to [out_cols]. *)
Record OutRow : Type := mkOut {
  o_agent : string;
  o_latitude : Q;
  o_longitude : Q;
  o_time : Z;
  o_cell_id : Z;
  o_bucket_id : Z;
}.

Inductive CsvLine : Type :=
  | HeaderLine (cols : list string)
  | DataLine (r : OutRow).

Inductive Node : Type :=
  | Dir
  | File (lines : list CsvLine).

(** A path is the list of its components; the file system maps the paths
    that exist to what they hold. *)
Abbreviation Path := (list string) (only parsing).
Abbreviation FS := (gmap (list string) Node) (only parsing).

Definition time_candidates : list string :=
  ["timestamp"; "time"; "datetime"; "date_time"; "ts"].

Definition find_time_column (df : DataFrame) : result string :=
  match List.find (fun cand => bool_decide (cand ∈ columns df)) time_candidates with
  | Some cand => Ok cand
  | None => Raise ValueError
  end.

(** [Path.exists()] *)
Definition path_exists (p : Path) (fs : FS) : bool :=
  match fs !! p with
  | Some _ => true
  | None => false
  end.

(** [Path.mkdir(parents=True, exist_ok=True)]: every missing directory on the
    way is created; a regular file on the way is an error. *)
Fixpoint mkdir_from (base : Path) (rest : list string) (fs : FS) : result FS :=
  match rest with
  | [] => Ok fs
  | d :: rest' =>
      let p := base ++ [d] in
      match fs !! p with
      | Some (File _) => Raise FileExistsError
      | _ => mkdir_from p rest' (<[p := Dir]> fs)
      end
  end.

Definition mkdir_parents (p : Path) (fs : FS) : result FS := mkdir_from [] p fs.

Definition parent (p : Path) : Path := removelast p.

Definition is_dir (p : Path) (fs : FS) : bool :=
  match p with
  | [] => true
  | _ =>
      match fs !! p with
      | Some Dir => true
      | _ => false
      end
  end.

(** [out_df.to_csv(out_csv, mode="a", header=write_header, index=False)] *)
Definition to_csv (cols : list string) (out_df : list OutRow) (out_csv : Path)
    (header : bool) (fs : FS) : result FS :=
  let lines := (if header then [HeaderLine cols] else []) ++ map DataLine out_df in
  match fs !! out_csv with
  | Some Dir => Raise IsADirectoryError
  | Some (File old) => Ok (<[out_csv := File (old ++ lines)]> fs)
  | None =>
      if is_dir (parent out_csv) fs
      then Ok (<[out_csv := File lines]> fs)
      else Raise FileNotFoundError
  end.

(** [DataFrame.sort_values(by=time_col)]: ascending, by insertion. *)
Fixpoint insert_by_time (r : OutRow) (l : list OutRow) : list OutRow :=
  match l with
  | [] => [r]
  | r' :: l' =>
      if o_time r <=? o_time r' then r :: l else r' :: insert_by_time r l'
  end.

Definition sort_values (l : list OutRow) : list OutRow :=
  foldr insert_by_time [] l.

(** The keys of [groupby("cell_id", sort=True)]: each once, ascending. *)
Fixpoint insert_key (k : Z) (ks : list Z) : list Z :=
  match ks with
  | [] => [k]
  | k' :: ks' =>
      if k <? k' then k :: ks
      else if k =? k' then ks
      else k' :: insert_key k ks'
  end.

Definition group_keys (joined : list OutRow) : list Z :=
  foldr insert_key [] (map o_cell_id joined).

Definition groupby_cell_id (joined : list OutRow) : list (Z * list OutRow) :=
  map (fun k => (k, List.filter (fun r => o_cell_id r =? k) joined))
      (group_keys joined).

(** [args.output_filename or f"visits_bucket{args.bucket_id}.csv"] *)
Definition default_filename (b : Z) : string :=
  "visits_bucket" +:+ pretty b +:+ ".csv".

Definition out_name (args : Args) : string :=
  match output_filename args with
  | Some name => if bool_decide (name = "") then default_filename (bucket_id args) else name
  | None => default_filename (bucket_id args)
  end.

Definition cell_folder (root : Path) (cell_id : Z) : Path :=
  root ++ ["cell_" +:+ pretty cell_id].

Definition out_cols (args : Args) (time_col : string) : list string :=
  [agent_id_field args; latitude_field args; longitude_field args; time_col;
   "cell_id"; "bucket_id"].

(** The two lines that write one block: [write_header = not out_csv.exists()]
    and the appending [to_csv]. *)
Definition append_block (cols : list string) (out_df : list OutRow)
    (out_csv : Path) (fs : FS) : result FS :=
  let write_header := negb (path_exists out_csv fs) in
  to_csv cols out_df out_csv write_header fs.

(** The body of the loop over the groups, lines 141 to 150 (the two counters
    of the loop are only printed and are left out). *)
Definition write_cell (args : Args) (time_col : string) (fs : FS)
    (grp : Z * list OutRow) : result FS :=
  let '(cell_id, sub) := grp in
  let folder := cell_folder (out_root args) cell_id in
  fs1 ← mkdir_parents folder fs;
  let out_csv := folder ++ [out_name args] in
  let out_df := sort_values sub in
  append_block (out_cols args time_col) out_df out_csv fs1.

(** The header rows of a file. *)
Definition is_header (l : CsvLine) : bool :=
  match l with
  | HeaderLine _ => true
  | DataLine _ => false
  end.

Definition header_count (ls : list CsvLine) : nat :=
  length (List.filter is_header ls).

(** The file at one path has exactly one header row, if there is a file
    at that path. *)
Definition one_header_at (p : Path) (fs : FS) : Prop :=
  forall ls : list CsvLine, fs !! p = Some (File ls) -> header_count ls = 1%nat.

(** What the writing of one group leaves on the disk, whether it ends
    normally or at an exception.  [mkdir] and the appending [to_csv] each
    succeed or change nothing; an exception ends the run, and what the
    steps before it have written stays. *)
Definition disk_after_cell (args : Args) (time_col : string) (fs : FS)
    (grp : Z * list OutRow) : FS * option PyError :=
  let '(cell_id, sub) := grp in
  let folder := cell_folder (out_root args) cell_id in
  match mkdir_parents folder fs with
  | Raise e => (fs, Some e)
  | Ok fs1 =>
      match append_block (out_cols args time_col) (sort_values sub)
                         (folder ++ [out_name args]) fs1 with
      | Raise e => (fs1, Some e)
      | Ok fs2 => (fs2, None)
      end
  end.

(** The loop over the groups, lines 140 to 150, up to its end or to the
    first exception. *)
Fixpoint disk_after_cells (args : Args) (time_col : string)
    (groups : list (Z * list OutRow)) (fs : FS) : FS * option PyError :=
  match groups with
  | [] => (fs, None)
  | grp :: groups' =>
      match disk_after_cell args time_col fs grp with
      | (fs', None) => disk_after_cells args time_col groups' fs'
      | (fs', Some e) => (fs', Some e)
      end
  end.

(** Ascending in the time column. *)
Definition time_sorted (l : list OutRow) : Prop :=
  StronglySorted (fun a b => o_time a <= o_time b) l.

(** The file a run writes for a cell. *)
Definition out_csv_path (args : Args) (cell_id : Z) : Path :=
  cell_folder (out_root args) cell_id ++ [out_name args].

Section Bucketizer.
Context {G : Type} `{Geometry G}.

(** The point geometries, in the grid's coordinate system. *)
Definition point_xy (grid : Grid G) (p : PointRecord) : Q * Q :=
  let xy := (longitude p, latitude p) in
  if grid_crs grid =? 4326 then xy
  else transform_xy (from_crs 4326 (grid_crs grid)) xy.

(** The cells a point is joined to by
    [gpd.sjoin(pts, grid, predicate="within", how="inner")]. *)
Definition cells_within (cells : list (Z * G)) (xy : Q * Q) : list Z :=
  map fst (List.filter (fun cell => within xy (snd cell)) cells).

Definition sjoin_within (grid : Grid G) (pts : list PointRecord)
    : list (PointRecord * Z) :=
  flat_map (fun p => map (fun id => (p, id))
                         (cells_within (grid_cells grid) (point_xy grid p)))
           pts.

(** The containment test of the join is strict: with [touches] for
    shapely's [Point(x, y).touches(g)], which holds of a point on the
    boundary of a polygon, a point that touches a polygon is not within
    it. *)
Definition strict_within (touches : Q * Q -> G -> bool) : Prop :=
  forall (p : Q * Q) (g : G), touches p g = true -> within p g = false.

(** The cells of a grid do not overlap: no point is within two of them. *)
Definition no_overlap (cells : list (Z * G)) : Prop :=
  forall (i j : nat) (a b : Z * G) (xy : Q * Q),
    cells !! i = Some a -> cells !! j = Some b -> i <> j ->
    within xy (snd a) = true -> within xy (snd b) = false.

(** [joined] with the two columns lines 127 and 128 add. *)
Definition joined_rows (args : Args) (grid : Grid G) (pts : list PointRecord)
    : list OutRow :=
  map (fun pc => mkOut (agent (fst pc)) (latitude (fst pc)) (longitude (fst pc))
                       (timestamp (fst pc)) (snd pc) (bucket_id args))
      (sjoin_within grid pts).

Definition required_columns (args : Args) : list string :=
  [agent_id_field args; latitude_field args; longitude_field args].

(** [main], from the loaded grid and table to the file system it leaves. *)
Definition main (args : Args) (grid : Grid G) (df : DataFrame) (fs : FS)
    : result FS :=
  if negb (bool_decide (grid_id_field args ∈ grid_columns grid))
  then Raise KeyError else
  if negb (forallb (fun c => bool_decide (c ∈ columns df)) (required_columns args))
  then Raise KeyError else
  time_col ← find_time_column df;
  let joined := joined_rows args grid (records df) in
  match joined with
  | [] => Ok fs
  | _ =>
      fs0 ← mkdir_parents (out_root args) fs;
      for_each (write_cell args time_col) (groupby_cell_id joined) fs0
  end.

(** Several runs of the script, one after the other, on one file system. *)
Fixpoint run_all (runs : list (Args * Grid G * DataFrame)) (fs : FS)
    : result FS :=
  match runs with
  | [] => Ok fs
  | (args, grid, df) :: runs' =>
      fs' ← main args grid df fs; run_all runs' fs'
  end.

(** What [main] leaves on the disk, whether it ends normally or at an
    exception, and the exception if there is one. *)
Definition disk_after_main (args : Args) (grid : Grid G) (df : DataFrame)
    (fs : FS) : FS * option PyError :=
  if negb (bool_decide (grid_id_field args ∈ grid_columns grid))
  then (fs, Some KeyError) else
  if negb (forallb (fun c => bool_decide (c ∈ columns df)) (required_columns args))
  then (fs, Some KeyError) else
  match find_time_column df with
  | Raise e => (fs, Some e)
  | Ok time_col =>
      let joined := joined_rows args grid (records df) in
      match joined with
      | [] => (fs, None)
      | _ =>
          match mkdir_parents (out_root args) fs with
          | Raise e => (fs, Some e)
          | Ok fs0 => disk_after_cells args time_col (groupby_cell_id joined) fs0
          end
      end
  end.

(** The disk after several runs, one after the other; a run that has
    stopped at an exception does not keep the next one from starting. *)
Fixpoint disk_after_runs (runs : list (Args * Grid G * DataFrame)) (fs : FS)
    : FS :=
  match runs with
  | [] => fs
  | (args, grid, df) :: runs' =>
      disk_after_runs runs' (fst (disk_after_main args grid df fs))
  end.

End Bucketizer.

(** One file system extends another when every file of the first is in
    the second with data rows added at its end, and every directory of the
    first is a directory of the second. *)
Definition fs_extends (fs fs' : FS) : Prop :=
  (forall (p : Path) (old : list CsvLine), fs !! p = Some (File old) ->
     exists more, fs' !! p = Some (File (old ++ map DataLine more))) /\
  (forall p : Path, fs !! p = Some Dir -> fs' !! p = Some Dir).

End CellCsvs.

(** ** A small geometry: axis-aligned rectangles

    An instance of the [Geometry] interface on closed axis-aligned
    rectangles, with the identity as every coordinate transformation.  It
    lets the scripts run on concrete inputs.  As in shapely, a rectangle
    that has collapsed to a segment or a point is not a polygon. *)

Module RectGeom.

Inductive rect : Type :=
  | NoPoints
  | Rect (x0 y0 x1 y1 : Q).

Definition qlt (a b : Q) : bool := negb (Qle_bool b a).
Definition qmin (a b : Q) : Q := if Qle_bool a b then a else b.
Definition qmax (a b : Q) : Q := if Qle_bool a b then b else a.

Definition rect_box (a b c d : Q) : rect :=
  Rect (qmin a c) (qmin b d) (qmax a c) (qmax b d).

Definition rect_intersection (g h : rect) : rect :=
  match g, h with
  | Rect a b c d, Rect a' b' c' d' =>
      let x0 := qmax a a' in
      let y0 := qmax b b' in
      let x1 := qmin c c' in
      let y1 := qmin d d' in
      if Qle_bool x0 x1 && Qle_bool y0 y1 then Rect x0 y0 x1 y1 else NoPoints
  | _, _ => NoPoints
  end.

Definition rect_is_empty (g : rect) : bool :=
  match g with
  | NoPoints => true
  | Rect _ _ _ _ => false
  end.

Definition rect_intersects (g h : rect) : bool :=
  negb (rect_is_empty (rect_intersection g h)).

Definition rect_type (g : rect) : GeomType :=
  match g with
  | NoPoints => Polygon
  | Rect a b c d => if qlt a c && qlt b d then Polygon else OtherGeom
  end.

Definition rect_area (g : rect) : Q :=
  match g with
  | NoPoints => 0
  | Rect a b c d => ((c - a) * (d - b))%Q
  end.

Definition rect_bounds (g : rect) : Q * Q * Q * Q :=
  match g with
  | NoPoints => (0%Q, 0%Q, 0%Q, 0%Q)
  | Rect a b c d => (a, b, c, d)
  end.

Definition rect_centroid (g : rect) : Q * Q :=
  match g with
  | NoPoints => (0%Q, 0%Q)
  | Rect a b c d => (((a + c) / 2)%Q, ((b + d) / 2)%Q)
  end.

(** Strictly inside: a point on an edge is not within. *)
Definition rect_within (p : Q * Q) (g : rect) : bool :=
  match g with
  | NoPoints => false
  | Rect a b c d =>
      qlt a (fst p) && qlt (fst p) c && qlt b (snd p) && qlt (snd p) d
  end.

(** On an edge: in the closed rectangle and not strictly inside. *)
Definition rect_touches (p : Q * Q) (g : rect) : bool :=
  match g with
  | NoPoints => false
  | Rect a b c d =>
      Qle_bool a (fst p) && Qle_bool (fst p) c &&
      Qle_bool b (snd p) && Qle_bool (snd p) d && negb (rect_within p g)
  end.

Global Instance rect_geometry : Geometry rect := {|
  geom_type := rect_type;
  box := rect_box;
  intersects := rect_intersects;
  intersection := rect_intersection;
  is_empty := rect_is_empty;
  area := rect_area;
  bounds := rect_bounds;
  centroid := rect_centroid;
  transform := fun _ g => g;
  transform_xy := fun _ p => p;
  within := rect_within;
|}.

(** The 200 by 100 rectangle of the specification's first scenario. *)
Definition aoi_200_100 : rect := Rect 0 0 200 100.

(** A 250 by 150 rectangle off the grid lines: six cells, five of them
    clipped. *)
Definition aoi_offset : rect := Rect 30 40 280 190.

(** A small rectangle inside one square. *)
Definition aoi_small : rect := Rect 10 10 20 20.

(** The two feature lists [main] writes for [aoi_offset]. *)
Definition offset_metric : list (MakeGrid.Feature rect) :=
  Eval vm_compute in
    match MakeGrid.main aoi_offset with
    | Ok (fm, _) => fm
    | Raise _ => []
    end.

Definition offset_wgs84 : list (MakeGrid.Feature rect) :=
  Eval vm_compute in
    match MakeGrid.main aoi_offset with
    | Ok (_, fw) => fw
    | Raise _ => []
    end.

End RectGeom.


(** ** A small run of the bucketizer *)

Module Demo.
Import CellCsvs.

Definition args0 : Args :=
  mkArgs ["data"; "cells"] 0 "cell_id" "agent" "latitude" "longitude" None.

Definition args1 : Args :=
  mkArgs ["data"; "cells"] 1 "cell_id" "agent" "latitude" "longitude" None.

(** The same two runs with [--output-filename visits.csv]. *)
Definition named0 : Args :=
  mkArgs ["data"; "cells"] 0 "cell_id" "agent" "latitude" "longitude"
         (Some "visits.csv").

Definition named1 : Args :=
  mkArgs ["data"; "cells"] 1 "cell_id" "agent" "latitude" "longitude"
         (Some "visits.csv").

(** The metric grid of [RectGeom.aoi_offset]. *)
Definition grid : Grid RectGeom.rect :=
  mkGrid ["cell_id"; "utm_crs"; "geometry"] 32656
         (MakeGrid.metric_cells RectGeom.offset_metric).

(** Three points inside cells 0 and 4, one on the line between cells 0
    and 1, one outside the AOI. *)
Definition df : DataFrame :=
  mkFrame ["agent"; "timestamp"; "latitude"; "longitude"]
          [mkPoint "a1" 30 50 50; mkPoint "a2" 10 60 60;
           mkPoint "a1" 20 150 150; mkPoint "a3" 5 50 100;
           mkPoint "a4" 1 0 0].

(** Points that all miss the grid. *)
Definition df_outside : DataFrame :=
  mkFrame ["agent"; "time"; "latitude"; "longitude"]
          [mkPoint "a3" 5 50 100; mkPoint "a4" 1 0 0].

Definition unwrap (r : result (gmap (list string) Node)) : gmap (list string) Node :=
  match r with
  | Ok fs => fs
  | Raise _ => ∅
  end.

(** One group written on an empty file system. *)
Definition group0 : list OutRow :=
  [mkOut "a1" 50 50 30 0 0; mkOut "a2" 60 60 10 0 0].

Definition fs_after_group : gmap (list string) Node :=
  unwrap (write_cell args0 "timestamp" ∅ (0, group0)).


(** Two more runs after that group was written. *)
Definition fs_after_more : gmap (list string) Node :=
  unwrap (run_all [(args0, grid, df); (args1, grid, df)] fs_after_group).

(** The folder of cell 0 holding an empty file where bucket 0 writes, and
    the disk after a run of bucket 0 on it. *)
Definition fs_empty_csv : gmap (list string) Node :=
  <[out_csv_path args0 0 := File []]>
    (unwrap (mkdir_parents (cell_folder (out_root args0) 0) ∅)).

Definition fs_after_empty_csv : gmap (list string) Node :=
  unwrap (main args0 grid df fs_empty_csv).

(** A table without the agent column: a run on it stops at the column
    check. *)
Definition df_no_agent : DataFrame :=
  mkFrame ["timestamp"; "latitude"; "longitude"] (records df).

(** A regular file where the folder of cell 4 should be: a run of bucket 0
    writes cell 0 and stops at cell 4.  Three runs on it, the second on the
    table without the agent column. *)
Definition fs_blocked : gmap (list string) Node :=
  <[cell_folder (out_root args0) 4 := File []]>
    (unwrap (mkdir_parents (out_root args0) ∅)).

Definition fs_after_blocked : gmap (list string) Node :=
  disk_after_runs [(args0, grid, df); (args0, grid, df_no_agent); (args0, grid, df)]
                  fs_blocked.

End Demo.

(** ** project_poly and to_wgs_geom, ring by ring

    The body of the two functions of [make_Grid.py], lines 36 to 61, on
    polygons given by their rings.  A ring is the list of its coordinates
    as shapely holds it (empty, or closed with at least four entries); a
    coordinate is a pair, of a type left open here (coordinates with a z
    value, on which the two-value unpacking of the source raises
    [ValueError], are outside this model); a transformer maps one
    coordinate at a time, as [Transformer.transform] does on arrays.  The
    field [transform] of the [Geometry] interface stands for what these
    functions return on a polygon or multi-polygon that has coordinates. *)

Module Rings.

Section Shapes.
Context {C : Type}.

Record PolygonRings : Type := mkPolygon {
  exterior : list C;
  interiors : list (list C);
}.

Inductive Shape : Type :=
  | APolygon (p : PolygonRings)
  | AMultiPolygon (geoms : list PolygonRings)
  | AnotherGeometry.

(** The list comprehension over [xs] and the loops that append [f(x)],
    stopping at the first exception. *)
Fixpoint map_result {A B : Type} (f : A -> result B) (xs : list A)
    : result (list B) :=
  match xs with
  | [] => Ok []
  | x :: xs' => y ← f x; ys ← map_result f xs'; Ok (y :: ys)
  end.

(** The coordinates of a ring unzipped, handed to [transformer.transform]
    and zipped back: with no coordinate the call [transformer.transform()]
    lacks its two arguments. *)
Definition transform_coords (tr : C -> C) (coords : list C) : result (list C) :=
  match coords with
  | [] => Raise TypeError
  | _ :: _ => Ok (map tr coords)
  end.

(** The [Polygon] branch. *)
Definition project_polygon (tr : C -> C) (p : PolygonRings) : result PolygonRings :=
  ext ← transform_coords tr (exterior p);
  ints ← map_result (transform_coords tr) (interiors p);
  Ok (mkPolygon ext ints).

Definition project_poly (geom : Shape) (tr : C -> C) : result Shape :=
  match geom with
  | APolygon p => p' ← project_polygon tr p; Ok (APolygon p')
  | AMultiPolygon geoms =>
      geoms' ← map_result (project_polygon tr) geoms; Ok (AMultiPolygon geoms')
  | AnotherGeometry => Raise TypeError
  end.

(** [to_wgs_geom] has the same body as [project_poly]. *)
Definition to_wgs_polygon (tr : C -> C) (p : PolygonRings) : result PolygonRings :=
  ext ← transform_coords tr (exterior p);
  ints ← map_result (transform_coords tr) (interiors p);
  Ok (mkPolygon ext ints).

Definition to_wgs_geom (geom : Shape) (tr : C -> C) : result Shape :=
  match geom with
  | APolygon p => p' ← to_wgs_polygon tr p; Ok (APolygon p')
  | AMultiPolygon geoms =>
      geoms' ← map_result (to_wgs_polygon tr) geoms; Ok (AMultiPolygon geoms')
  | AnotherGeometry => Raise TypeError
  end.

(** Every ring has a coordinate. *)
Definition polygon_has_coords (p : PolygonRings) : bool :=
  match exterior p with
  | [] => false
  | _ :: _ => forallb (fun ring => match ring with [] => false | _ :: _ => true end)
                      (interiors p)
  end.

Definition shape_has_coords (geom : Shape) : bool :=
  match geom with
  | APolygon p => polygon_has_coords p
  | AMultiPolygon geoms => forallb polygon_has_coords geoms
  | AnotherGeometry => false
  end.

(** A transformer applied to every coordinate of every ring. *)
Definition map_polygon (tr : C -> C) (p : PolygonRings) : PolygonRings :=
  mkPolygon (map tr (exterior p)) (map (map tr) (interiors p)).

Definition map_shape (tr : C -> C) (geom : Shape) : Shape :=
  match geom with
  | APolygon p => APolygon (map_polygon tr p)
  | AMultiPolygon geoms => AMultiPolygon (map (map_polygon tr) geoms)
  | AnotherGeometry => AnotherGeometry
  end.

(** The coordinates of a geometry, and its layout: per polygon the number
    of coordinates of the exterior ring and of each hole. *)
Definition polygon_coords (p : PolygonRings) : list C :=
  exterior p ++ concat (interiors p).

Definition shape_coords (geom : Shape) : list C :=
  match geom with
  | APolygon p => polygon_coords p
  | AMultiPolygon geoms => flat_map polygon_coords geoms
  | AnotherGeometry => []
  end.

Definition polygon_layout (p : PolygonRings) : nat * list nat :=
  (length (exterior p), map (@length C) (interiors p)).

Definition shape_layout (geom : Shape) : list (nat * list nat) :=
  match geom with
  | APolygon p => [polygon_layout p]
  | AMultiPolygon geoms => map polygon_layout geoms
  | AnotherGeometry => []
  end.

(** A ring whose first and last coordinates coincide. *)
Definition closed_ring (ring : list C) : Prop :=
  head ring = last ring.

Definition shape_rings (geom : Shape) : list (list C) :=
  match geom with
  | APolygon p => exterior p :: interiors p
  | AMultiPolygon geoms => flat_map (fun p => exterior p :: interiors p) geoms
  | AnotherGeometry => []
  end.

End Shapes.

Arguments PolygonRings : clear implicits.
Arguments Shape : clear implicits.

(** A square with a square hole, on integer coordinates, and the shift by
    a false easting and its inverse. *)
Definition holed_square : Shape (Z * Z) :=
  APolygon (mkPolygon [(0, 0); (10, 0); (10, 10); (0, 10); (0, 0)]
                      [[(2, 2); (4, 2); (4, 4); (2, 4); (2, 2)]]).

Definition shift_east (p : Z * Z) : Z * Z := (fst p + 500000, snd p).
Definition shift_west (p : Z * Z) : Z * Z := (fst p - 500000, snd p).

End Rings.

(** * Properties *)

(** ** Loops in the exception monad *)

Lemma bind_Ok {A B : Type} (m : result A) (f : A -> result B) (b : B) :
  m ≫= f = Ok b -> exists a, m = Ok a /\ f a = Ok b.
Proof. destruct m as [a|e]; simpl; [eauto | discriminate]. Qed.

Lemma bind_Raise {A B : Type} (m : result A) (f : A -> result B) (e : PyError) :
  m ≫= f = Raise e -> m = Raise e \/ exists a, m = Ok a /\ f a = Raise e.
Proof. destruct m as [a|e']; simpl; [eauto | intros [= ->]; auto]. Qed.

Lemma unwrap_is_ok (r : result (gmap (list string) CellCsvs.Node)) :
  is_ok r = true -> r = Ok (Demo.unwrap r).
Proof. destruct r; [reflexivity|discriminate]. Qed.

(** An invariant of the loop body is an invariant of the loop. *)
Lemma for_each_preserves {St X : Type} (P : St -> Prop)
    (body : St -> X -> result St) (xs : list X) :
  (forall s x s', P s -> body s x = Ok s' -> P s') ->
  forall st st', P st -> for_each body xs st = Ok st' -> P st'.
Proof.
  intros Hbody. induction xs as [|x xs IH]; intros st st' HP Hrun; simpl in Hrun.
  - congruence.
  - apply bind_Ok in Hrun as (s1 & H1 & H2). eauto.
Qed.

(** A loop over [range] with an invariant indexed by the next index. *)
Lemma for_range_ind {St : Type} (P : Z -> St -> Prop) (body : St -> Z -> result St) :
  forall (n : nat) (a : Z) (st st' : St),
    (forall i s s', a <= i < a + Z.of_nat n -> P i s -> body s i = Ok s' -> P (i + 1) s') ->
    P a st ->
    for_each body (seqZ a (Z.of_nat n)) st = Ok st' ->
    P (a + Z.of_nat n) st'.
Proof.
  induction n as [|n IH]; intros a st st' Hbody HP Hrun.
  - simpl in Hrun. injection Hrun as <-. now rewrite Z.add_0_r.
  - rewrite seqZ_cons in Hrun by lia. simpl in Hrun.
    apply bind_Ok in Hrun as (s1 & H1 & H2).
    replace (Z.pred (Z.of_nat (S n))) with (Z.of_nat n) in H2 by lia.
    replace (a + Z.of_nat (S n)) with (Z.succ a + Z.of_nat n) by lia.
    apply (IH (Z.succ a) s1 st'); [| |exact H2].
    + intros i s s' Hi. apply Hbody. lia.
    + replace (Z.succ a) with (a + 1) by lia. apply (Hbody a st s1); [lia|done|done].
Qed.

Lemma for_range_inv {St : Type} (P : Z -> St -> Prop) (body : St -> Z -> result St)
    (n : Z) (st st' : St) :
  (forall i s s', 0 <= i < n -> P i s -> body s i = Ok s' -> P (i + 1) s') ->
  P 0 st ->
  for_each body (seqZ 0 n) st = Ok st' ->
  P (Z.max 0 n) st'.
Proof.
  intros Hbody HP Hrun.
  destruct (Z.le_gt_cases n 0) as [Hn|Hn].
  - rewrite seqZ_nil in Hrun by done. injection Hrun as <-.
    now replace (Z.max 0 n) with 0 by lia.
  - replace (Z.max 0 n) with (0 + Z.of_nat (Z.to_nat n)) by lia.
    apply (for_range_ind P body (Z.to_nat n) 0 st st'); [|done|].
    + intros i s s' Hi. apply Hbody. lia.
    + now rewrite Z2Nat.id by lia.
Qed.

(** The exception a loop raises is one its body raises on an item. *)
Lemma for_each_Raise_in {St X : Type} (body : St -> X -> result St) (xs : list X) :
  forall st e, for_each body xs st = Raise e ->
    exists s x, x ∈ xs /\ body s x = Raise e.
Proof.
  induction xs as [|x xs IH]; intros st e Hrun; simpl in Hrun; [discriminate|].
  apply bind_Raise in Hrun as [Hx|(s1 & _ & Hrest)].
  - exists st, x. split; [left|done].
  - destruct (IH _ _ Hrest) as (s & y & Hy & Hb). exists s, y.
    split; [now right|done].
Qed.

Lemma StronglySorted_snoc {A : Type} (R : A -> A -> Prop) (l : list A) (x : A) :
  StronglySorted R l -> Forall (fun y => R y x) l -> StronglySorted R (l ++ [x]).
Proof.
  induction 1 as [|y l Hl IH Hy]; intros Hx; simpl.
  - repeat constructor.
  - apply Forall_cons in Hx as [Hyx Hlx]. constructor; [auto|].
    apply Forall_app. split; [done|]. repeat constructor. done.
Qed.

Lemma seqZ_snoc (n : Z) : 0 <= n -> seqZ 0 (n + 1) = seqZ 0 n ++ [n].
Proof.
  intros Hn. rewrite seqZ_app by lia. f_equal.
Qed.

(** ** The grid builder *)

Module GridProps.
Import MakeGrid.

Section Scan.
Context {G : Type} `{Geometry G}.
Variables (CELL : Q) (utm : Z) (to_wgs : Transformer) (aoi_m : G).

Lemma scan_inv_weaken (b1 b2 : Z * Z -> Prop) (st : LoopState G) :
  (forall p, b1 p -> b2 p) -> scan_inv CELL aoi_m b1 st -> scan_inv CELL aoi_m b2 st.
Proof.
  intros Hb [? ? ? ? ? Hbound ?]. constructor; try done.
  eapply Forall_impl; eauto.
Qed.

Lemma cell_step_inv (r c : Z) (st st' : LoopState G) :
  scan_inv CELL aoi_m (fun p => scan_before p (r, c)) st ->
  cell_step CELL utm to_wgs aoi_m (origin_x CELL aoi_m) (origin_y CELL aoi_m) r st c
    = Ok st' ->
  scan_inv CELL aoi_m (fun p => scan_before p (r, c + 1)) st'.
Proof.
  intros Hinv Hstep.
  assert (Hnext : forall p, scan_before p (r, c) -> scan_before p (r, c + 1)).
  { intros p [Hp|[Hp1 Hp2]]; [left|right]; simpl in *; lia. }
  unfold cell_step in Hstep.
  destruct (intersects aoi_m _) eqn:Hint; simpl in Hstep;
    [|injection Hstep as <-; exact (scan_inv_weaken _ _ _ Hnext Hinv)].
  destruct (is_empty _) eqn:Hemp;
    [injection Hstep as <-; exact (scan_inv_weaken _ _ _ Hnext Hinv)|].
  apply bind_Ok in Hstep as (inter_w & Hw & Hst). injection Hst as <-.
  unfold to_wgs_geom in Hw. destruct (polygonal _) eqn:Hpoly; [|discriminate].
  destruct Hinv as [Hm Hw' Hn Hp Hs Hb Hc].
  constructor; simpl.
  - rewrite fmap_app, Hm. simpl. now rewrite seqZ_snoc.
  - rewrite fmap_app, Hw'. simpl. now rewrite seqZ_snoc.
  - lia.
  - rewrite !fmap_app, Hp. done.
  - rewrite fmap_app. simpl. apply StronglySorted_snoc; done.
  - rewrite fmap_app. apply Forall_app. split.
    + eapply Forall_impl; [exact Hb|]. exact Hnext.
    + constructor; [|constructor]. right. simpl. lia.
  - apply Forall_app. split; [done|]. constructor; [|constructor].
    unfold clipped_cell; simpl. rewrite Hemp, Hint, Hpoly. done.
Qed.

Lemma row_step_inv (r : Z) (st st' : LoopState G) :
  scan_inv CELL aoi_m (fun p => fst p < r) st ->
  row_step CELL utm to_wgs aoi_m (origin_x CELL aoi_m) (origin_y CELL aoi_m)
           (n_cols CELL aoi_m) st r = Ok st' ->
  scan_inv CELL aoi_m (fun p => fst p < r + 1) st'.
Proof.
  intros Hinv Hrow. unfold row_step in Hrow.
  apply (for_range_inv
           (fun c s => scan_inv CELL aoi_m (fun p => scan_before p (r, c)) s))
    in Hrow.
  - eapply scan_inv_weaken; [|exact Hrow].
    intros p [Hp|[Hp _]]; simpl in *; lia.
  - intros c s s' _. apply cell_step_inv.
  - eapply scan_inv_weaken; [|exact Hinv]. intros p Hp. now left.
Qed.

Lemma build_grid_inv (st : LoopState G) :
  build_grid CELL utm to_wgs aoi_m = Ok st ->
  scan_inv CELL aoi_m (fun _ => True) st.
Proof.
  unfold build_grid. destruct (Qeq_bool CELL 0); [discriminate|]. intros Hrun.
  apply (for_range_inv (fun r s => scan_inv CELL aoi_m (fun p => fst p < r) s))
    in Hrun.
  - eapply scan_inv_weaken; [|exact Hrun]. done.
  - intros r s s' _. apply row_step_inv.
  - constructor; simpl; try done; constructor.
Qed.

End Scan.

(** *** Anchoring: floor and ceiling against the cell size

    Over exact rationals the formulas of lines 82 to 85 do what they are
    meant to do; the three lemmas that follow say nothing about the
    rounding of the floats, which [grid_anchor_misses_bounds] below is
    about. *)

Lemma floor_cell (CELL x : Q) :
  (0 < CELL)%Q ->
  (grid_start CELL x <= x)%Q /\ (x < grid_start CELL x + CELL)%Q.
Proof.
  intros Hc. unfold grid_start.
  assert (Hx : (x == x / CELL * CELL)%Q) by (field; lra).
  pose proof (Qfloor_le (x / CELL)) as Hlo.
  pose proof (Qlt_floor (x / CELL)) as Hhi.
  rewrite inject_Z_plus in Hhi. change (inject_Z 1) with 1%Q in Hhi.
  set (q := (x / CELL)%Q) in *. set (k := inject_Z (Qfloor q)) in *.
  split; nra.
Qed.

Lemma ceil_cell (CELL start hi : Q) :
  (0 < CELL)%Q ->
  (hi <= start + inject_Z (grid_count CELL start hi) * CELL)%Q /\
  (start + inject_Z (grid_count CELL start hi) * CELL - CELL < hi)%Q.
Proof.
  intros Hc. unfold grid_count.
  assert (Hx : (hi - start == (hi - start) / CELL * CELL)%Q) by (field; lra).
  pose proof (Qle_ceiling ((hi - start) / CELL)) as Hlo.
  pose proof (Qceiling_lt ((hi - start) / CELL)) as Hhi.
  unfold Z.sub in Hhi. rewrite inject_Z_plus in Hhi.
  assert (H1 : (inject_Z (-1) == -1)%Q) by reflexivity. rewrite H1 in Hhi.
  set (q := ((hi - start) / CELL)%Q) in *. set (k := inject_Z (Qceiling q)) in *.
  split; nra.
Qed.

(** Along one axis: every coordinate of a proper interval falls in one of
    the [grid_count] cells that start at [grid_start]. *)
Lemma axis_cover (CELL lo hi x : Q) :
  (0 < CELL)%Q -> (lo < hi)%Q -> (lo <= x)%Q -> (x <= hi)%Q ->
  exists c : Z,
    0 <= c < grid_count CELL (grid_start CELL lo) hi /\
    (grid_start CELL lo + inject_Z c * CELL <= x)%Q /\
    (x <= grid_start CELL lo + inject_Z c * CELL + CELL)%Q.
Proof.
  intros Hc Hlohi Hlo Hhi.
  destruct (floor_cell CELL lo Hc) as [Hs1 Hs2].
  destruct (ceil_cell CELL (grid_start CELL lo) hi Hc) as [Hn1 Hn2].
  set (start := grid_start CELL lo) in *.
  set (n := grid_count CELL start hi) in *.
  destruct (floor_cell CELL (x - start) Hc) as [Hk1 Hk2].
  unfold grid_start in Hk1, Hk2.
  set (k := Qfloor ((x - start) / CELL)) in *.
  assert (Hn : 1 <= n).
  { destruct (Z.le_gt_cases 1 n) as [|Hlt]; [done|exfalso].
    assert (Hq : (inject_Z n <= inject_Z 0)%Q) by (rewrite <- Zle_Qle; lia).
    change (inject_Z 0) with 0%Q in Hq. nra. }
  assert (Hk : 0 <= k).
  { destruct (Z.le_gt_cases 0 k) as [|Hlt]; [done|exfalso].
    assert (Hq : (inject_Z k <= inject_Z (-1))%Q) by (rewrite <- Zle_Qle; lia).
    assert (H1 : (inject_Z (-1) == -1)%Q) by reflexivity. rewrite H1 in Hq. nra. }
  destruct (Z.le_gt_cases k (n - 1)) as [Hkn|Hkn].
  - exists k. split; [lia|]. split; lra.
  - exists (n - 1). split; [lia|].
    assert (Hq : (inject_Z (n - 1) <= inject_Z k)%Q) by (rewrite <- Zle_Qle; lia).
    assert (Hm : (inject_Z (n - 1) == inject_Z n - 1)%Q).
    { unfold Z.sub. rewrite inject_Z_plus. reflexivity. }
    rewrite Hm in *. split; nra.
Qed.

Section Main.
Context {G : Type} `{Geometry G}.

Lemma grid_main_inv (CELL : Q) (aoi_wgs : G) (fm fw : list (Feature G)) :
  grid_main CELL aoi_wgs = Ok (fm, fw) ->
  exists st, fm = features_metric st /\ fw = features_wgs84 st /\
             scan_inv CELL (projected_aoi aoi_wgs) (fun _ => True) st.
Proof.
  unfold grid_main. intros Hrun.
  apply bind_Ok in Hrun as (aoi_m & Hproj & Hrun).
  apply bind_Ok in Hrun as (st & Hgrid & Hout). injection Hout as <- <-.
  unfold project_poly in Hproj. destruct (polygonal aoi_wgs); [|discriminate].
  injection Hproj as <-.
  exists st. split; [done|]. split; [done|].
  eapply build_grid_inv. exact Hgrid.
Qed.

Lemma StronglySorted_lookup_lt {A : Type} (R : A -> A -> Prop) (l : list A) :
  StronglySorted R l ->
  forall (i j : nat) (x y : A),
    l !! i = Some x -> l !! j = Some y -> (i < j)%nat -> R x y.
Proof.
  induction 1 as [|z l Hl IH Hz]; intros i j x y Hi Hj Hij.
  - discriminate.
  - destruct j as [|j]; [lia|]. simpl in Hj. destruct i as [|i]; simpl in Hi.
    + injection Hi as <-. rewrite Forall_forall in Hz. apply Hz.
      eapply list_elem_of_lookup_2. exact Hj.
    + apply (IH i j); [done|done|lia].
Qed.

(** C1. Every cell the grid builder emits has a non-empty geometry that is
    the intersection of its square footprint with the projected AOI, and its
    footprint intersects the AOI; so a position whose footprint does not
    intersect the AOI is the position of no emitted cell, in either output
    list. *)
Theorem emitted_cells_are_clipped (CELL : Q) (aoi_wgs : G)
    (fm fw : list (Feature G)) :
  grid_main CELL aoi_wgs = Ok (fm, fw) ->
  let aoi_m := projected_aoi aoi_wgs in
  let square := footprint CELL (origin_x CELL aoi_m) (origin_y CELL aoi_m) in
  (forall f, f ∈ fm ->
     is_empty (geometry f) = false /\
     geometry f = intersection (square (row f) (col f)) aoi_m /\
     intersects aoi_m (square (row f) (col f)) = true) /\
  (forall r c, intersects aoi_m (square r c) = false ->
     forall f, f ∈ fm \/ f ∈ fw -> pos f <> (r, c)).
Proof.
  intros Hrun aoi_m square.
  apply grid_main_inv in Hrun as (st & -> & -> & Hinv).
  destruct Hinv as [_ _ _ Hpw _ _ Hclip]. rewrite Forall_forall in Hclip.
  assert (Hfm : forall f, f ∈ features_metric st ->
            is_empty (geometry f) = false /\
            geometry f = intersection (square (row f) (col f)) aoi_m /\
            intersects aoi_m (square (row f) (col f)) = true).
  { intros f Hf.
    destruct (Hclip f Hf) as (He & Hg & Hi & _). done. }
  split; [exact Hfm|].
  intros r c Hno f Hf Hpos.
  assert (Hin : exists f', f' ∈ features_metric st /\ pos f' = (r, c)).
  { destruct Hf as [Hf|Hf]; [eauto|].
    assert (Hp : pos f ∈ pos <$> features_metric st).
    { rewrite <- Hpw. apply list_elem_of_fmap. eauto. }
    apply list_elem_of_fmap in Hp as (f' & Hpf & Hf'). exists f'. split; congruence. }
  destruct Hin as (f' & Hf' & Hpos').
  destruct (Hfm f' Hf') as (_ & _ & Hi).
  injection Hpos' as Hr Hc. rewrite Hr, Hc in Hi. congruence.
Qed.

(** C2. The identifiers of the emitted cells are 0, 1, ..., N-1 in the order
    of emission, in both output lists, and that order is the row-major scan
    order: the cell at index [i] carries identifier [i], and of two emitted
    cells the earlier one has the smaller row, or the same row and the
    smaller column. *)
Theorem cell_ids_contiguous_row_major (CELL : Q) (aoi_wgs : G)
    (fm fw : list (Feature G)) :
  grid_main CELL aoi_wgs = Ok (fm, fw) ->
  cell_id <$> fm = seqZ 0 (Z.of_nat (length fm)) /\
  cell_id <$> fw = seqZ 0 (Z.of_nat (length fw)) /\
  pos <$> fw = pos <$> fm /\
  StronglySorted scan_before (pos <$> fm) /\
  (forall (i j : nat) (f g : Feature G),
     fm !! i = Some f -> fm !! j = Some g ->
     cell_id f = Z.of_nat i /\
     ((i < j)%nat -> cell_id f < cell_id g /\ scan_before (pos f) (pos g))).
Proof.
  intros Hrun. apply grid_main_inv in Hrun as (st & -> & -> & Hinv).
  destruct Hinv as [Hm Hw Hn Hpw Hs _ _].
  assert (Hlen : forall l : list (Feature G),
            cell_id <$> l = seqZ 0 (next_cell_id st) ->
            Z.of_nat (length l) = next_cell_id st).
  { intros l Hl. rewrite <- (length_fmap cell_id), Hl, length_seqZ. lia. }
  rewrite (Hlen _ Hm), (Hlen _ Hw).
  assert (Hid : forall (i : nat) f, features_metric st !! i = Some f ->
            cell_id f = Z.of_nat i).
  { intros i f Hi.
    assert (Hc : (cell_id <$> features_metric st) !! i = Some (cell_id f))
      by (rewrite list_lookup_fmap, Hi; done).
    rewrite Hm in Hc. apply lookup_seqZ in Hc as [-> _]. lia. }
  repeat split; try done.
  - eauto.
  - rewrite (Hid i f), (Hid j g) by done. lia.
  - apply (StronglySorted_lookup_lt scan_before (pos <$> features_metric st) Hs i j);
      [rewrite list_lookup_fmap, H0|rewrite list_lookup_fmap, H1|]; done.
Qed.

(** *** Footprints the two guards skip *)

Lemma for_each_skip {St X : Type} (body : St -> X -> result St) (xs : list X)
    (st : St) :
  (forall x, x ∈ xs -> body st x = Ok st) -> for_each body xs st = Ok st.
Proof.
  induction xs as [|x xs IH]; intros Hskip; simpl; [done|].
  rewrite (Hskip x) by left. simpl. apply IH. intros y Hy. apply Hskip. now right.
Qed.

(** When every footprint of the grid either misses the AOI or clips to an
    empty geometry, the scan ends normally with no cell. *)
Lemma skipped_footprints_no_cells (CELL : Q) (utm : Z) (to_wgs : Transformer)
    (aoi_m : G) :
  Qeq_bool CELL 0 = false ->
  (forall r c,
     let sq := footprint CELL (origin_x CELL aoi_m) (origin_y CELL aoi_m) r c in
     intersects aoi_m sq = false \/ is_empty (intersection sq aoi_m) = true) ->
  build_grid CELL utm to_wgs aoi_m = Ok (mkLoop [] [] 0).
Proof.
  intros Hz Hskip. unfold build_grid. rewrite Hz.
  apply for_each_skip. intros r _. unfold row_step.
  apply for_each_skip. intros c _. unfold cell_step.
  destruct (Hskip r c) as [Hno|Hemp].
  - now rewrite Hno.
  - destruct (intersects aoi_m _); simpl; [|done]. now rewrite Hemp.
Qed.

(** C6, as the code has it. The builder does not check the cell size. With
    a cell size of zero no run completes: whatever the projected AOI, the
    scan stops at the first division, line 82, with [ZeroDivisionError],
    and in binary64 that division raises it for every bound, NaN included,
    and for both zeros. *)
Theorem zero_cell_size_aborts (CELL : Q) (aoi_wgs : G) :
  (CELL == 0)%Q ->
  (exists e, grid_main CELL aoi_wgs = Raise e) /\
  (forall (utm : Z) (to_wgs : Transformer) (aoi_m : G),
     build_grid CELL utm to_wgs aoi_m = Raise ZeroDivisionError) /\
  (forall (s : bool) (lo : spec_float),
     Float64.grid_start (S754_zero s) lo = Raise ZeroDivisionError).
Proof.
  intros Hz.
  assert (Hb : forall utm to_wgs (aoi_m : G),
            build_grid CELL utm to_wgs aoi_m = Raise ZeroDivisionError).
  { intros. unfold build_grid. now rewrite (Qeq_eq_bool _ _ Hz). }
  split; [|split; [exact Hb|reflexivity]].
  unfold grid_main, project_poly.
  destruct (polygonal aoi_wgs); simpl; [|eauto].
  rewrite Hb. simpl. eauto.
Qed.

(** *** Points against the emitted cells *)

Lemma cells_within_metric_cons (f : Feature G) (fm : list (Feature G)) (xy : Q * Q) :
  CellCsvs.cells_within (metric_cells (f :: fm)) xy =
  (if within xy (geometry f) then [cell_id f] else []) ++
  CellCsvs.cells_within (metric_cells fm) xy.
Proof.
  unfold CellCsvs.cells_within, metric_cells. simpl.
  destruct (within xy (geometry f)); reflexivity.
Qed.

Lemma cells_within_metric_nil (fm : list (Feature G)) (xy : Q * Q) :
  (forall f, f ∈ fm -> within xy (geometry f) = false) ->
  CellCsvs.cells_within (metric_cells fm) xy = [].
Proof.
  induction fm as [|f fm IH]; intros Hno; [reflexivity|].
  rewrite cells_within_metric_cons, (Hno f) by left. simpl.
  apply IH. intros g Hg. apply Hno. now right.
Qed.

(** A coordinate strictly inside a cell of the grid determines the cell. *)
Lemma open_cell_unique (CELL s x : Q) (c1 c2 : Z) :
  (0 < CELL)%Q ->
  (s + inject_Z c1 * CELL < x)%Q -> (x < s + inject_Z c1 * CELL + CELL)%Q ->
  (s + inject_Z c2 * CELL < x)%Q -> (x < s + inject_Z c2 * CELL + CELL)%Q ->
  c1 = c2.
Proof.
  intros Hc H1 H1' H2 H2'.
  destruct (Z.lt_trichotomy c1 c2) as [Hlt|[Heq|Hgt]]; [exfalso|done|exfalso].
  - assert (Hq : (inject_Z (c1 + 1) <= inject_Z c2)%Q) by (rewrite <- Zle_Qle; lia).
    rewrite inject_Z_plus in Hq. change (inject_Z 1) with 1%Q in Hq. nra.
  - assert (Hq : (inject_Z (c2 + 1) <= inject_Z c1)%Q) by (rewrite <- Zle_Qle; lia).
    rewrite inject_Z_plus in Hq. change (inject_Z 1) with 1%Q in Hq. nra.
Qed.

(** A coordinate on a line of the grid is strictly inside no cell. *)
Lemma grid_line_not_inside (CELL s x : Q) (k c : Z) :
  (0 < CELL)%Q -> (x == s + inject_Z k * CELL)%Q ->
  (s + inject_Z c * CELL < x)%Q -> (x < s + inject_Z c * CELL + CELL)%Q -> False.
Proof.
  intros Hc Hk H1 H2.
  destruct (Z.le_gt_cases k c) as [Hle|Hgt].
  - assert (Hq : (inject_Z k <= inject_Z c)%Q) by (rewrite <- Zle_Qle; lia). nra.
  - assert (Hq : (inject_Z (c + 1) <= inject_Z k)%Q) by (rewrite <- Zle_Qle; lia).
    rewrite inject_Z_plus in Hq. change (inject_Z 1) with 1%Q in Hq. nra.
Qed.

Lemma within_clipped_cell (CELL : Q) (aoi_m : G) (f : Feature G) (xy : Q * Q) :
  (0 < CELL)%Q -> clip_interior_law -> clipped_cell CELL aoi_m f ->
  within xy (geometry f) = true ->
  let x0 := cell_x0 CELL (origin_x CELL aoi_m) (col f) in
  let y0 := cell_y0 CELL (origin_y CELL aoi_m) (row f) in
  (x0 < fst xy)%Q /\ (fst xy < x0 + CELL)%Q /\
  (y0 < snd xy)%Q /\ (snd xy < y0 + CELL)%Q.
Proof.
  intros Hc Hlaw (_ & Hgeo & _ & Hpoly) Hin x0 y0.
  rewrite Hgeo in Hpoly, Hin. unfold footprint in Hpoly, Hin.
  apply (Hlaw xy _ _ _ _ aoi_m); [subst x0; lra|subst y0; lra|done|done].
Qed.

(** Among cells that do not overlap a point is within at most one. *)
Lemma cells_within_no_overlap (cells : list (Z * G)) (xy : Q * Q) :
  CellCsvs.no_overlap cells -> (length (CellCsvs.cells_within cells xy) <= 1)%nat.
Proof.
  unfold CellCsvs.cells_within. rewrite length_map.
  induction cells as [|a cells IH]; intros Hno; simpl; [lia|].
  assert (Hrest : CellCsvs.no_overlap cells).
  { intros i j b c q Hi Hj Hij. apply (Hno (S i) (S j) b c q Hi Hj). lia. }
  destruct (within xy (snd a)) eqn:Ha; [|auto].
  assert (Hnil : List.filter (fun cell => within xy (snd cell)) cells = []).
  { clear IH. induction cells as [|b cells IHc]; [done|]. simpl.
    rewrite (Hno 0%nat 1%nat a b xy eq_refl eq_refl) by (done || lia).
    apply IHc.
    - intros i j c d q Hi Hj Hij. destruct i as [|i], j as [|j]; try lia.
      + simpl in Hi. injection Hi as <-.
        apply (Hno 0%nat (S (S j)) a d q eq_refl Hj). lia.
      + simpl in Hj. injection Hj as <-.
        apply (Hno (S (S i)) 0%nat c a q Hi eq_refl). lia.
      + apply (Hno (S (S i)) (S (S j)) c d q Hi Hj). lia.
    - intros i j c d q Hi Hj Hij. apply (Hrest (S i) (S j) c d q Hi Hj). lia. }
  simpl. rewrite Hnil. simpl. lia.
Qed.

(** The cells of the metric output do not overlap. *)
Lemma metric_cells_no_overlap (CELL : Q) (aoi_m : G) (fm : list (Feature G)) :
  (0 < CELL)%Q -> clip_interior_law ->
  StronglySorted scan_before (pos <$> fm) ->
  Forall (clipped_cell CELL aoi_m) fm ->
  CellCsvs.no_overlap (metric_cells fm).
Proof.
  intros Hc Hlaw Hs Hclip i j a b xy Hi Hj Hij Ha.
  unfold metric_cells in Hi, Hj.
  rewrite list_lookup_fmap in Hi, Hj.
  destruct (fm !! i) as [f|] eqn:Hfi; [|discriminate].
  destruct (fm !! j) as [g|] eqn:Hfj; [|discriminate].
  simpl in Hi, Hj. injection Hi as <-. injection Hj as <-. simpl in *.
  destruct (within xy (geometry g)) eqn:Hb; [exfalso|done].
  rewrite Forall_forall in Hclip.
  destruct (within_clipped_cell CELL _ f xy Hc Hlaw
              (Hclip f (list_elem_of_lookup_2 _ _ _ Hfi)) Ha)
    as (Hf1 & Hf2 & Hf3 & Hf4).
  destruct (within_clipped_cell CELL _ g xy Hc Hlaw
              (Hclip g (list_elem_of_lookup_2 _ _ _ Hfj)) Hb)
    as (Hg1 & Hg2 & Hg3 & Hg4).
  unfold cell_x0, cell_y0 in *.
  assert (Hrow : row f = row g)
    by (eapply open_cell_unique; [exact Hc|exact Hf3|exact Hf4|exact Hg3|exact Hg4]).
  assert (Hcol : col f = col g)
    by (eapply open_cell_unique; [exact Hc|exact Hf1|exact Hf2|exact Hg1|exact Hg2]).
  assert (Hlt : forall (i j : nat) (f g : Feature G),
            fm !! i = Some f -> fm !! j = Some g -> (i < j)%nat ->
            scan_before (pos f) (pos g)).
  { intros i' j' f' g' Hi' Hj' Hlt.
    apply (StronglySorted_lookup_lt scan_before (pos <$> fm) Hs i' j');
      [rewrite list_lookup_fmap, Hi'|rewrite list_lookup_fmap, Hj'|]; done. }
  destruct (Nat.lt_trichotomy i j) as [Hl|[He|Hg]]; [|done|].
  - destruct (Hlt i j f g Hfi Hfj Hl) as [?|[_ ?]]; simpl in *; lia.
  - destruct (Hlt j i g f Hfj Hfi Hg) as [?|[_ ?]]; simpl in *; lia.
Qed.

(** C4. The join keeps a point for a cell only when the point is strictly
    within the cell's polygon. On every grid, metric or WGS84 and whatever
    its coordinate system, an output row of a point comes from a cell that
    contains the point and on whose boundary the point does not lie: a
    point on the shared boundary of two cells gets a row from neither. On
    every grid whose cells do not overlap a point gets at most one row. The
    cells of the metric grid the builder wrote with a positive cell size do
    not overlap, so on that grid, whatever coordinate system the reader
    takes it to be in, a point is joined to at most one cell, and it is
    joined to none when it lies on a line of the grid. *)
Theorem boundary_point_at_most_one_cell (touches : Q * Q -> G -> bool) :
  CellCsvs.strict_within touches ->
  (forall (grid : CellCsvs.Grid G) (p : CellCsvs.PointRecord) (id : Z),
     (p, id) ∈ CellCsvs.sjoin_within grid [p] ->
     exists g, (id, g) ∈ CellCsvs.grid_cells grid /\
       within (CellCsvs.point_xy grid p) g = true /\
       touches (CellCsvs.point_xy grid p) g = false) /\
  (forall (grid : CellCsvs.Grid G) (p : CellCsvs.PointRecord),
     CellCsvs.no_overlap (CellCsvs.grid_cells grid) ->
     (length (CellCsvs.sjoin_within grid [p]) <= 1)%nat) /\
  (forall (CELL : Q) (aoi_wgs : G) (fm fw : list (Feature G))
          (grid_cols : list string) (crs : Z) (p : CellCsvs.PointRecord),
     (0 < CELL)%Q -> clip_interior_law ->
     grid_main CELL aoi_wgs = Ok (fm, fw) ->
     let grid := CellCsvs.mkGrid grid_cols crs (metric_cells fm) in
     CellCsvs.no_overlap (metric_cells fm) /\
     (length (CellCsvs.sjoin_within grid [p]) <= 1)%nat /\
     (on_grid_line CELL (projected_aoi aoi_wgs) (CellCsvs.point_xy grid p) ->
      CellCsvs.sjoin_within grid [p] = [])).
Proof.
  intros Hstrict.
  assert (Hjoin : forall (grid : CellCsvs.Grid G) (p : CellCsvs.PointRecord),
            CellCsvs.sjoin_within grid [p] =
            map (fun id => (p, id))
                (CellCsvs.cells_within (CellCsvs.grid_cells grid)
                                       (CellCsvs.point_xy grid p))).
  { intros grid p. unfold CellCsvs.sjoin_within. simpl. now rewrite app_nil_r. }
  split; [|split].
  - intros grid p id Hrow. rewrite Hjoin in Hrow.
    apply list_elem_of_fmap in Hrow as (id' & [= <-] & Hid).
    unfold CellCsvs.cells_within in Hid.
    apply list_elem_of_fmap in Hid as ([id' g] & -> & Hcell). simpl.
    apply list_elem_of_In, filter_In in Hcell as [Hin Hw]. simpl in Hw.
    exists g. split; [now apply list_elem_of_In|]. split; [exact Hw|].
    destruct (touches _ g) eqn:Ht; [|done].
    apply Hstrict in Ht. congruence.
  - intros grid p Hno. rewrite Hjoin, length_map.
    now apply cells_within_no_overlap.
  - intros CELL aoi_wgs fm fw grid_cols crs p Hc Hlaw Hrun grid.
    apply grid_main_inv in Hrun as (st & -> & -> & Hinv).
    destruct Hinv as [_ _ _ _ Hs _ Hclip].
    pose proof (metric_cells_no_overlap CELL _ _ Hc Hlaw Hs Hclip) as Hno.
    rewrite Forall_forall in Hclip.
    set (xy := CellCsvs.point_xy grid p).
    rewrite Hjoin, length_map. split; [exact Hno|]. split.
    + now apply cells_within_no_overlap.
    + intros (k & Hline). simpl. rewrite cells_within_metric_nil; [done|].
      intros f Hf. destruct (within xy (geometry f)) eqn:Hin; [exfalso|done].
      destruct (within_clipped_cell CELL _ f xy Hc Hlaw (Hclip f Hf) Hin)
        as (Hf1 & Hf2 & Hf3 & Hf4).
      unfold cell_x0, cell_y0 in *.
      destruct Hline as [Hx|Hy]; eapply grid_line_not_inside; eauto.
Qed.

End Main.

(** The rectangles satisfy the interior law. *)
Lemma qlt_true (a b : Q) : RectGeom.qlt a b = true -> (a < b)%Q.
Proof.
  unfold RectGeom.qlt. destruct (Qle_bool b a) eqn:Hle; [discriminate|].
  intros _. apply Qnot_le_lt. intros Hba. apply Qle_bool_iff in Hba. congruence.
Qed.

Lemma qmax_ge_l (a b : Q) : (a <= RectGeom.qmax a b)%Q.
Proof.
  unfold RectGeom.qmax. destruct (Qle_bool a b) eqn:Hle; [|lra].
  now apply Qle_bool_iff.
Qed.

Lemma qmin_le_l (a b : Q) : (RectGeom.qmin a b <= a)%Q.
Proof.
  unfold RectGeom.qmin. destruct (Qle_bool a b) eqn:Hle; [lra|].
  destruct (Qlt_le_dec b a) as [Hlt|Hge]; [lra|].
  apply Qle_bool_iff in Hge. congruence.
Qed.

Lemma qmin_lt (a b : Q) : (a < b)%Q -> RectGeom.qmin a b = a.
Proof.
  intros Hlt. unfold RectGeom.qmin. destruct (Qle_bool a b) eqn:Hle; [done|].
  assert (Hab : (a <= b)%Q) by lra. apply Qle_bool_iff in Hab. congruence.
Qed.

Lemma qmax_lt (a b : Q) : (a < b)%Q -> RectGeom.qmax a b = b.
Proof.
  intros Hlt. unfold RectGeom.qmax. destruct (Qle_bool a b) eqn:Hle; [done|].
  assert (Hab : (a <= b)%Q) by lra. apply Qle_bool_iff in Hab. congruence.
Qed.

Lemma rect_clip_interior_law : @clip_interior_law RectGeom.rect _.
Proof.
  intros [px py] x0 y0 x1 y1 a Hx Hy _ Hin. simpl in *.
  unfold RectGeom.rect_box in Hin.
  rewrite (qmin_lt _ _ Hx), (qmin_lt _ _ Hy), (qmax_lt _ _ Hx), (qmax_lt _ _ Hy) in Hin.
  destruct a as [|a b c d]; simpl in Hin; [discriminate|].
  destruct (Qle_bool _ _ && Qle_bool _ _); simpl in Hin; [|discriminate].
  apply andb_prop in Hin as [Hin H4]. apply andb_prop in Hin as [Hin H3].
  apply andb_prop in Hin as [H1 H2].
  apply qlt_true in H1, H2, H3, H4.
  pose proof (qmax_ge_l x0 a). pose proof (qmax_ge_l y0 b).
  pose proof (qmin_le_l x1 c). pose proof (qmin_le_l y1 d).
  repeat split; lra.
Qed.

(** A point on an edge of a rectangle is not within it. *)
Lemma rect_strict_within : @CellCsvs.strict_within RectGeom.rect _ RectGeom.rect_touches.
Proof.
  intros [px py] [|a b c d]; simpl; [done|].
  destruct (RectGeom.qlt a px && RectGeom.qlt px c &&
            RectGeom.qlt b py && RectGeom.qlt py d); [|done].
  rewrite andb_false_r. discriminate.
Qed.

Lemma boundary_point_at_most_one_cell_witness :
  CellCsvs.sjoin_within
    (CellCsvs.mkGrid ["cell_id"; "geometry"] 4326
                     (metric_cells RectGeom.offset_metric))
    [CellCsvs.mkPoint "a1" 7 50 100] = [].
Proof.
  destruct (@boundary_point_at_most_one_cell RectGeom.rect _ RectGeom.rect_touches
              rect_strict_within) as (_ & _ & Hgrid).
  destruct (Hgrid 100%Q RectGeom.aoi_offset
              RectGeom.offset_metric RectGeom.offset_wgs84
              ["cell_id"; "geometry"] 4326 (CellCsvs.mkPoint "a1" 7 50 100))
    as (_ & _ & Hline).
  - reflexivity.
  - exact rect_clip_interior_law.
  - vm_compute. reflexivity.
  - apply Hline. exists 1. left. vm_compute. reflexivity.
Defined.

(** C7, where it fails. The anchoring of lines 82 to 85 in binary64, with
    the cell size 100.0. For the bounds -1199950.0 and 834000 + 2^-33 on
    an axis (a wide AOI, reaching west of the false origin of its zone) the
    origin is -1200000.0 and the count is 20340, since the extent
    2034000 + 2^-33 rounds to 2034000.0: the last footprint ends at
    834000.0, below the maximum. The same happens for the bounds -50.0 and
    2^-50: the count is 1 and the one footprint ends at 0.0. For the
    minimum -2^-1074 the quotient rounds to -0.0, so the origin is 0.0,
    above the minimum. And when minimum and maximum are both 100.0 the
    count is 0: no footprint at all. *)
Theorem grid_anchor_misses_bounds :
  let CELL := Float64.b64 100 0 in
  let wide := Float64.b64 (834000 * 2 ^ 33 + 1) (-33) in
  let small := Float64.b64 1 (-50) in
  let tiny := Float64.b64 (-1) (-1074) in
  (Float64.grid_start CELL (Float64.b64 (-1199950) 0) =
     Ok (Float64.b64 (-1200000) 0) /\
   Float64.grid_count CELL (Float64.b64 (-1200000) 0) wide = Ok 20340 /\
   Float64.cell_hi CELL (Float64.b64 (-1200000) 0) 20339 =
     Ok (Float64.b64 834000 0) /\
   SFltb (Float64.b64 834000 0) wide = true) /\
  (Float64.grid_start CELL (Float64.b64 (-50) 0) = Ok (Float64.b64 (-100) 0) /\
   Float64.grid_count CELL (Float64.b64 (-100) 0) small = Ok 1 /\
   Float64.cell_hi CELL (Float64.b64 (-100) 0) 0 = Ok (S754_zero false) /\
   SFltb (S754_zero false) small = true) /\
  (Float64.grid_start CELL tiny = Ok (S754_zero false) /\
   SFltb tiny (S754_zero false) = true) /\
  (Float64.grid_start CELL CELL = Ok CELL /\
   Float64.grid_count CELL CELL CELL = Ok 0).
Proof. vm_compute. repeat split. Qed.

Lemma zero_cell_size_aborts_witness :
  build_grid 0 32633 (from_crs 32633 4326) RectGeom.aoi_small =
    Raise ZeroDivisionError.
Proof.
  destruct (zero_cell_size_aborts 0 RectGeom.aoi_small) as (_ & Hb & _).
  - reflexivity.
  - apply Hb.
Defined.

(** C6, as stated, fails: with the cell size -100 the run on a small
    rectangle is not aborted, it completes and emits one cell. *)
Lemma negative_cell_size_completes :
  (-100 <= 0)%Q /\
  grid_main (-100) RectGeom.aoi_small =
    Ok ([mkFeature 0 0 0 (Some "EPSG:32633") 100 (RectGeom.Rect 10 10 20 20)],
        [mkFeature 0 0 0 None 100 (RectGeom.Rect 10 10 20 20)]).
Proof. split; [discriminate|]. vm_compute. reflexivity. Qed.

(** *** The zone of a longitude *)

(** Over exact rationals, inside [-180, 180) the zone is one of the
    sixty, six degrees wide, and it covers the longitude.  (In binary64 the
    sum [lon + 180] is rounded, and the float just below 180 gives zone 61
    as 180 does.) *)
Lemma utm_zone_in_range (lon : Q) :
  (-180 <= lon)%Q -> (lon < 180)%Q ->
  1 <= utm_zone lon <= 60 /\
  (-180 + 6 * inject_Z (utm_zone lon - 1) <= lon)%Q /\
  (lon < -180 + 6 * inject_Z (utm_zone lon))%Q.
Proof.
  intros Hlo Hhi. unfold utm_zone.
  assert (Hq : ((lon + 180) / 6 * 6 == lon + 180)%Q) by (field; lra).
  pose proof (Qfloor_le ((lon + 180) / 6)) as Hf1.
  pose proof (Qlt_floor ((lon + 180) / 6)) as Hf2.
  set (k := Qfloor ((lon + 180) / 6)) in *.
  replace (k + 1 - 1) with k by lia.
  rewrite inject_Z_plus in *. change (inject_Z 1) with 1%Q in *.
  assert (Hk0 : 0 <= k).
  { destruct (Z.le_gt_cases 0 k) as [|Hlt]; [done|exfalso].
    assert (Hk : (inject_Z k <= inject_Z (-1))%Q) by (rewrite <- Zle_Qle; lia).
    assert (H1 : (inject_Z (-1) == -1)%Q) by reflexivity. rewrite H1 in Hk. lra. }
  assert (Hk59 : k <= 59).
  { destruct (Z.le_gt_cases k 59) as [|Hlt]; [done|exfalso].
    assert (Hk : (inject_Z 60 <= inject_Z k)%Q) by (rewrite <- Zle_Qle; lia).
    assert (H1 : (inject_Z 60 == 60)%Q) by reflexivity. rewrite H1 in Hk. lra. }
  split; [lia|]. split; lra.
Qed.

Lemma best_utm_hemisphere (lon lat : Q) :
  ((0 <= lat)%Q -> best_utm lon lat = 32600 + utm_zone lon) /\
  ((lat < 0)%Q -> best_utm lon lat = 32700 + utm_zone lon).
Proof.
  unfold best_utm. destruct (Qle_bool 0 lat) eqn:Hle.
  - apply Qle_bool_iff in Hle. split; [done|]. intros Hn. lra.
  - split; [|done]. intros Hp. apply Qle_bool_iff in Hp. congruence.
Qed.

(** C3, at the antimeridian. For the longitude 180 the code computes zone
    61, which is none of the sixty zones, and hands out the codes 32661 and
    32761. *)
Theorem best_utm_antimeridian :
  utm_zone 180 = 61 /\ ~ (1 <= utm_zone 180 <= 60) /\
  best_utm 180 0 = 32661 /\ best_utm 180 (-1) = 32761.
Proof. repeat split. vm_compute. intros [_ Hle]. apply Hle. reflexivity. Qed.

Lemma emitted_cells_are_clipped_witness :
  Forall (fun f =>
            is_empty (geometry f) = false /\
            geometry f =
              intersection (footprint 100 0 0 (row f) (col f)) RectGeom.aoi_offset /\
            intersects RectGeom.aoi_offset (footprint 100 0 0 (row f) (col f)) = true)
         RectGeom.offset_metric.
Proof.
  apply Forall_forall.
  destruct (emitted_cells_are_clipped 100 RectGeom.aoi_offset
              RectGeom.offset_metric RectGeom.offset_wgs84) as [Hcells _].
  - vm_compute. reflexivity.
  - exact Hcells.
Defined.

Lemma cell_ids_contiguous_row_major_witness :
  cell_id <$> RectGeom.offset_metric = [0; 1; 2; 3; 4; 5] /\
  pos <$> RectGeom.offset_metric = [(0, 0); (0, 1); (0, 2); (1, 0); (1, 1); (1, 2)].
Proof.
  destruct (cell_ids_contiguous_row_major 100 RectGeom.aoi_offset
              RectGeom.offset_metric RectGeom.offset_wgs84) as (Hids & _).
  - vm_compute. reflexivity.
  - split; [exact Hids|reflexivity].
Defined.

End GridProps.

(** ** The bucketizer *)

Module CsvProps.
Import CellCsvs.

(** *** Sorting by time *)

Lemma insert_by_time_sorted (r : OutRow) (l : list OutRow) :
  time_sorted l -> time_sorted (insert_by_time r l).
Proof.
  unfold time_sorted. induction 1 as [|r' l Hl IH Hr']; simpl.
  - repeat constructor.
  - destruct (o_time r <=? o_time r') eqn:Hle.
    + apply Z.leb_le in Hle. constructor; [by constructor|].
      constructor; [done|]. eapply Forall_impl; [exact Hr'|].
      intros x Hx. simpl in Hx. lia.
    + apply Z.leb_gt in Hle. constructor; [done|].
      assert (Hall : forall l', Forall (fun b => o_time r' <= o_time b) l' ->
                Forall (fun b => o_time r' <= o_time b) (insert_by_time r l')).
      { induction l' as [|x l' IHl']; intros Hf; simpl.
        - constructor; [lia|constructor].
        - apply Forall_cons in Hf as [Hx Hf].
          destruct (o_time r <=? o_time x); repeat constructor; auto; lia. }
      apply Hall. done.
Qed.

Lemma insert_by_time_perm (r : OutRow) (l : list OutRow) :
  insert_by_time r l ≡ₚ r :: l.
Proof.
  induction l as [|r' l IH]; simpl; [done|].
  destruct (o_time r <=? o_time r'); [done|].
  rewrite IH. apply Permutation_swap.
Qed.

Lemma sort_values_sorted (l : list OutRow) : time_sorted (sort_values l).
Proof.
  induction l as [|r l IH]; simpl.
  - constructor.
  - apply insert_by_time_sorted. exact IH.
Qed.

Lemma sort_values_perm (l : list OutRow) : sort_values l ≡ₚ l.
Proof.
  induction l as [|r l IH]; simpl; [done|].
  rewrite insert_by_time_perm. now rewrite IH.
Qed.

(** *** Directories *)

(** Creating directories touches no path longer than the directory asked
    for, and neither creates, changes nor removes a file. *)
Lemma mkdir_from_frame (rest : list string) :
  forall (base : list string) (fs fs' : gmap (list string) Node),
    mkdir_from base rest fs = Ok fs' ->
    (forall p, (length (base ++ rest) < length p)%nat -> fs' !! p = fs !! p) /\
    (forall p ls, fs' !! p = Some (File ls) <-> fs !! p = Some (File ls)) /\
    (rest <> [] -> fs' !! (base ++ rest) = Some Dir).
Proof.
  induction rest as [|d rest IH]; intros base fs fs' Hmk; simpl in Hmk.
  - injection Hmk as <-. repeat split; done.
  - assert (Hmk' : mkdir_from (base ++ [d]) rest (<[base ++ [d] := Dir]> fs) = Ok fs'
                   /\ forall ls, fs !! (base ++ [d]) <> Some (File ls)).
    { destruct (fs !! (base ++ [d])) as [[|ls]|] eqn:Hp; try discriminate; done. }
    destruct Hmk' as [Hmk' Hnofile].
    apply IH in Hmk' as (Hlong & Hfiles & Hdir).
    rewrite <- app_assoc in Hlong, Hdir. simpl in Hlong, Hdir.
    split; [|split].
    + intros p Hp. rewrite Hlong by done. apply lookup_insert_ne.
      intros <-. rewrite !length_app in Hp. simpl in Hp. lia.
    + intros p ls. rewrite Hfiles.
      destruct (decide (base ++ [d] = p)) as [<-|Hne].
      * rewrite lookup_insert_eq. split; [discriminate|]. intros Hf.
        now apply Hnofile in Hf.
      * now rewrite lookup_insert_ne.
    + intros _. destruct rest as [|d' rest'].
      * simpl in Hmk. clear Hdir.
        assert (Heq : fs' = <[base ++ [d] := Dir]> fs).
        { destruct (fs !! (base ++ [d])) as [[|ls]|]; simpl in Hmk; congruence. }
        rewrite Heq. apply lookup_insert_eq.
      * apply Hdir. discriminate.
Qed.

Lemma mkdir_parents_files (p : list string) (fs fs' : gmap (list string) Node) :
  mkdir_parents p fs = Ok fs' ->
  forall q ls, fs' !! q = Some (File ls) <-> fs !! q = Some (File ls).
Proof. intros Hmk. apply (mkdir_from_frame p [] fs fs' Hmk). Qed.

(** *** Appending a block *)

Lemma header_count_data (block : list OutRow) :
  header_count (map DataLine block) = 0%nat.
Proof. unfold header_count. induction block as [|r block IH]; simpl; done. Qed.

Lemma header_count_app (l1 l2 : list CsvLine) :
  header_count (l1 ++ l2) = (header_count l1 + header_count l2)%nat.
Proof. unfold header_count. now rewrite List.filter_app, length_app. Qed.

Lemma append_block_new (cols : list string) (block : list OutRow)
    (p : list string) (fs : gmap (list string) Node) :
  fs !! p = None -> is_dir (parent p) fs = true ->
  append_block cols block p fs =
    Ok (<[p := File (HeaderLine cols :: map DataLine block)]> fs).
Proof.
  intros Hnone Hdir. unfold append_block, path_exists, to_csv.
  rewrite Hnone, Hdir. reflexivity.
Qed.

Lemma append_block_existing (cols : list string) (block : list OutRow)
    (p : list string) (fs : gmap (list string) Node) (old : list CsvLine) :
  fs !! p = Some (File old) ->
  append_block cols block p fs = Ok (<[p := File (old ++ map DataLine block)]> fs).
Proof.
  intros Hold. unfold append_block, path_exists, to_csv.
  rewrite Hold. reflexivity.
Qed.

(** What a successful append leaves: the block after the old content, or
    after a fresh header; every other path as it was. *)
Lemma append_block_Ok (cols : list string) (block : list OutRow)
    (p : list string) (fs fs' : gmap (list string) Node) :
  append_block cols block p fs = Ok fs' ->
  exists before,
    fs' = <[p := File (before ++ map DataLine block)]> fs /\
    (fs !! p = Some (File before) \/
     (fs !! p = None /\ before = [HeaderLine cols])).
Proof.
  unfold append_block, path_exists, to_csv.
  destruct (fs !! p) as [[|old]|] eqn:Hp; simpl; [discriminate| |].
  - intros [= <-]. exists old. split; [done|]. now left.
  - destruct (is_dir (parent p) fs); [|discriminate].
    intros [= <-]. exists [HeaderLine cols]. split; [done|]. now right.
Qed.

(** Appending and creating directories keep the one header row of the
    file at any path. *)
Lemma append_block_header_at (cols : list string) (block : list OutRow)
    (p q : list string) (fs fs' : gmap (list string) Node) :
  one_header_at q fs -> append_block cols block p fs = Ok fs' -> one_header_at q fs'.
Proof.
  intros Hone Happ. apply append_block_Ok in Happ as (before & -> & Hbefore).
  intros ls Hq. destruct (decide (p = q)) as [<-|Hne].
  - rewrite lookup_insert_eq in Hq. injection Hq as <-.
    rewrite header_count_app, header_count_data.
    destruct Hbefore as [Hold|[_ ->]].
    + rewrite (Hone before Hold). done.
    + reflexivity.
  - rewrite lookup_insert_ne in Hq by done. eauto.
Qed.

Lemma mkdir_parents_header_at (p q : list string) (fs fs' : gmap (list string) Node) :
  one_header_at q fs -> mkdir_parents p fs = Ok fs' -> one_header_at q fs'.
Proof.
  intros Hone Hmk ls Hq.
  apply (mkdir_parents_files p fs fs' Hmk) in Hq. eauto.
Qed.

Lemma disk_after_cell_header_at (args : Args) (time_col : string) (q : list string)
    (fs : gmap (list string) Node) (grp : Z * list OutRow) :
  one_header_at q fs -> one_header_at q (fst (disk_after_cell args time_col fs grp)).
Proof.
  intros Hone. destruct grp as [cid sub]. unfold disk_after_cell.
  destruct (mkdir_parents _ fs) as [fs1|e] eqn:Hmk; [|done].
  pose proof (mkdir_parents_header_at _ _ _ _ Hone Hmk) as H1.
  destruct (append_block _ _ _ fs1) as [fs2|e] eqn:Happ; simpl; [|done].
  eapply append_block_header_at; eauto.
Qed.

Lemma disk_after_cells_header_at (args : Args) (time_col : string) (q : list string)
    (groups : list (Z * list OutRow)) :
  forall fs : gmap (list string) Node,
    one_header_at q fs ->
    one_header_at q (fst (disk_after_cells args time_col groups fs)).
Proof.
  induction groups as [|grp groups IH]; intros fs Hone; simpl; [done|].
  pose proof (disk_after_cell_header_at args time_col q fs grp Hone) as H1.
  destruct (disk_after_cell args time_col fs grp) as [fs' [e|]]; simpl in *; [done|].
  now apply IH.
Qed.

(** On a run that ends normally the disk is what the run returns. *)
Lemma disk_after_cell_Ok (args : Args) (time_col : string)
    (fs fs' : gmap (list string) Node) (grp : Z * list OutRow) :
  write_cell args time_col fs grp = Ok fs' ->
  disk_after_cell args time_col fs grp = (fs', None).
Proof.
  destruct grp as [cid sub]. unfold write_cell, disk_after_cell. intros Hw.
  apply bind_Ok in Hw as (fs1 & -> & ->). done.
Qed.

Lemma disk_after_cells_Ok (args : Args) (time_col : string)
    (groups : list (Z * list OutRow)) :
  forall fs fs' : gmap (list string) Node,
    for_each (write_cell args time_col) groups fs = Ok fs' ->
    disk_after_cells args time_col groups fs = (fs', None).
Proof.
  induction groups as [|grp groups IH]; intros fs fs' Hrun; simpl in Hrun.
  - now injection Hrun as <-.
  - apply bind_Ok in Hrun as (fs1 & H1 & H2). simpl.
    rewrite (disk_after_cell_Ok _ _ _ _ _ H1). now apply IH.
Qed.

(** *** File names *)

Lemma string_length_app (s t : string) :
  String.length (s +:+ t) = (String.length s + String.length t)%nat.
Proof. induction s as [|a s IH]; simpl; [done|]. now rewrite IH. Qed.

Lemma string_app_inj_r (t s1 s2 : string) : s1 +:+ t = s2 +:+ t -> s1 = s2.
Proof.
  revert s2. induction s1 as [|a s1 IH]; intros [|b s2] Heq; simpl in Heq.
  - done.
  - apply (f_equal String.length) in Heq.
    rewrite (string_length_app (String b s2)), (string_length_app "") in Heq.
    simpl in Heq. lia.
  - apply (f_equal String.length) in Heq.
    rewrite (string_length_app (String a s1)), (string_length_app "") in Heq.
    simpl in Heq. lia.
  - injection Heq as -> Heq. f_equal. now apply IH.
Qed.

Lemma default_filename_inj (b1 b2 : Z) :
  default_filename b1 = default_filename b2 -> b1 = b2.
Proof.
  unfold default_filename. intros Heq.
  apply (String.app_inj "visits_bucket") in Heq.
  apply string_app_inj_r in Heq. now apply pretty_Z_inj in Heq.
Qed.

(** *** Runs *)

Section Runs.
Context {G : Type} `{Geometry G}.

Lemma disk_after_main_header_at (args : Args) (grid : Grid G) (df : DataFrame)
    (q : list string) (fs : gmap (list string) Node) :
  one_header_at q fs -> one_header_at q (fst (disk_after_main args grid df fs)).
Proof.
  intros Hone. unfold disk_after_main.
  destruct (negb (bool_decide _)); [done|].
  destruct (negb (forallb _ _)); [done|].
  destruct (find_time_column df) as [time_col|e]; [|done].
  destruct (joined_rows args grid (records df)) as [|r rows]; [done|].
  destruct (mkdir_parents (out_root args) fs) as [fs0|e] eqn:Hmk; [|done].
  apply disk_after_cells_header_at.
  eapply mkdir_parents_header_at; eauto.
Qed.

Lemma disk_after_runs_header_at (q : list string)
    (runs : list (Args * Grid G * DataFrame)) :
  forall fs : gmap (list string) Node,
    one_header_at q fs -> one_header_at q (disk_after_runs runs fs).
Proof.
  induction runs as [|[[args grid] df] runs IH]; intros fs Hone; simpl; [done|].
  apply IH. now apply disk_after_main_header_at.
Qed.

Lemma disk_after_main_Ok (args : Args) (grid : Grid G) (df : DataFrame)
    (fs fs' : gmap (list string) Node) :
  main args grid df fs = Ok fs' -> disk_after_main args grid df fs = (fs', None).
Proof.
  unfold main, disk_after_main.
  destruct (negb (bool_decide _)); [discriminate|].
  destruct (negb (forallb _ _)); [discriminate|].
  destruct (find_time_column df) as [time_col|e]; simpl; [|discriminate].
  destruct (joined_rows args grid (records df)) as [|r rows].
  - now intros [= <-].
  - intros Hrun. apply bind_Ok in Hrun as (fs0 & -> & Hloop).
    now apply disk_after_cells_Ok.
Qed.

Lemma disk_after_runs_Ok (runs : list (Args * Grid G * DataFrame)) :
  forall fs fs' : gmap (list string) Node,
    run_all runs fs = Ok fs' -> disk_after_runs runs fs = fs'.
Proof.
  induction runs as [|[[args grid] df] runs IH]; intros fs fs' Hrun; simpl in Hrun.
  - now injection Hrun as <-.
  - apply bind_Ok in Hrun as (fs1 & H1 & H2). simpl.
    rewrite (disk_after_main_Ok _ _ _ _ _ H1). now apply IH.
Qed.

(** C8, as the code has it. Appending a block to a path that does not exist
    yet writes a header row and then the data; appending to an existing
    file adds the data after its content and no header. Hence a file that
    holds exactly one header row, or is not there yet, holds exactly one
    header row after any number of runs, whether the runs end normally or
    stop at an exception, and whatever else the output root holds; on
    runs that all end normally the disk is the one they return. When no
    output file name is supplied, runs with distinct bucket identifiers
    write distinct files in the directory of a cell. *)
Theorem header_once_then_data :
  (forall cols block p (fs : gmap (list string) Node),
     fs !! p = None -> is_dir (parent p) fs = true ->
     append_block cols block p fs =
       Ok (<[p := File (HeaderLine cols :: map DataLine block)]> fs)) /\
  (forall cols block p (fs : gmap (list string) Node) old,
     fs !! p = Some (File old) ->
     append_block cols block p fs =
       Ok (<[p := File (old ++ map DataLine block)]> fs)) /\
  (forall (runs : list (Args * Grid G * DataFrame)) (p : list string)
          (fs : gmap (list string) Node),
     one_header_at p fs -> one_header_at p (disk_after_runs runs fs)) /\
  (forall (runs : list (Args * Grid G * DataFrame))
          (fs fs' : gmap (list string) Node),
     run_all runs fs = Ok fs' -> disk_after_runs runs fs = fs') /\
  (forall (a1 a2 : Args) (cell : Z),
     output_filename a1 = None -> output_filename a2 = None ->
     out_root a1 = out_root a2 -> bucket_id a1 <> bucket_id a2 ->
     out_csv_path a1 cell <> out_csv_path a2 cell).
Proof.
  split; [|split; [|split; [|split]]].
  - intros. now apply append_block_new.
  - intros. now apply append_block_existing.
  - intros runs p fs. apply disk_after_runs_header_at.
  - apply disk_after_runs_Ok.
  - intros a1 a2 cell Hn1 Hn2 Hroot Hne Heq.
    unfold out_csv_path, out_name in Heq. rewrite Hn1, Hn2, Hroot in Heq.
    apply app_inv_head in Heq.
    assert (Hname : default_filename (bucket_id a1) = default_filename (bucket_id a2)).
    { set (n1 := default_filename _) in *. set (n2 := default_filename _) in *.
      congruence. }
    apply default_filename_inj in Hname. done.
Qed.

(** C9. When the join assigns no point to any cell, a run returns the file
    system it was given: no directory is created and no file is written or
    changed. The run then ends normally whenever the grid and the table
    have the columns the script asks for. *)
Theorem empty_join_leaves_files (args : Args) (grid : Grid G) (df : DataFrame)
    (fs : gmap (list string) Node) :
  sjoin_within grid (records df) = [] ->
  (forall fs', main args grid df fs = Ok fs' -> fs' = fs) /\
  (grid_id_field args ∈ grid_columns grid ->
   Forall (fun c => c ∈ columns df) (required_columns args) ->
   (exists cand, cand ∈ time_candidates /\ cand ∈ columns df) ->
   main args grid df fs = Ok fs).
Proof.
  intros Hjoin.
  assert (Hrows : joined_rows args grid (records df) = []).
  { unfold joined_rows. now rewrite Hjoin. }
  split.
  - intros fs'. unfold main.
    destruct (negb (bool_decide _)); [discriminate|].
    destruct (negb (forallb _ _)); [discriminate|].
    intros Hrun. apply bind_Ok in Hrun as (time_col & _ & Hrun).
    rewrite Hrows in Hrun. now injection Hrun as <-.
  - intros Hgrid Hcols (cand & Hcand & Hin). unfold main.
    rewrite (bool_decide_eq_true_2 _ Hgrid).
    assert (Hall : forallb (fun c => bool_decide (c ∈ columns df))
                           (required_columns args) = true).
    { apply forallb_forall. intros c Hc. apply bool_decide_eq_true_2.
      rewrite Forall_forall in Hcols. apply Hcols. now apply list_elem_of_In. }
    rewrite Hall. simpl.
    assert (Htime : exists t, find_time_column df = Ok t).
    { unfold find_time_column.
      destruct (List.find _ time_candidates) as [t|] eqn:Hfind; [eauto|].
      exfalso. apply list_elem_of_In in Hcand.
      apply (List.find_none _ _ Hfind) in Hcand.
      now rewrite bool_decide_eq_true_2 in Hcand. }
    destruct Htime as (t & ->). simpl. now rewrite Hrows.
Qed.

End Runs.

(** C10. The block a run appends to the file of a cell is the group of that
    cell sorted by ascending time: after the write the file holds what it
    held before, or a fresh header, followed by the rows of the group in
    an order in which the time column never decreases. *)
Theorem appended_block_sorted_by_time (args : Args) (time_col : string)
    (fs fs' : gmap (list string) Node) (cell : Z) (sub : list OutRow) :
  write_cell args time_col fs (cell, sub) = Ok fs' ->
  exists before block,
    fs' !! out_csv_path args cell = Some (File (before ++ map DataLine block)) /\
    time_sorted block /\ block ≡ₚ sub /\
    (fs !! out_csv_path args cell = Some (File before) \/
     (fs !! out_csv_path args cell = None /\
      before = [HeaderLine (out_cols args time_col)])).
Proof.
  intros Hw. unfold write_cell in Hw.
  apply bind_Ok in Hw as (fs1 & Hmk & Happ).
  fold (out_csv_path args cell) in Happ.
  apply append_block_Ok in Happ as (before & -> & Hbefore).
  assert (Hsame : fs1 !! out_csv_path args cell = fs !! out_csv_path args cell).
  { apply (mkdir_from_frame _ [] fs fs1 Hmk).
    unfold out_csv_path. simpl. rewrite length_app. simpl. lia. }
  exists before, (sort_values sub).
  split; [apply lookup_insert_eq|].
  split; [apply sort_values_sorted|].
  split; [apply sort_values_perm|].
  now rewrite <- Hsame.
Qed.

Lemma appended_block_sorted_by_time_witness :
  exists before block,
    Demo.fs_after_group !! out_csv_path Demo.args0 0 =
      Some (File (before ++ map DataLine block)) /\
    time_sorted block /\ block ≡ₚ Demo.group0 /\
    ((∅ : gmap (list string) Node) !! out_csv_path Demo.args0 0 = Some (File before) \/
     ((∅ : gmap (list string) Node) !! out_csv_path Demo.args0 0 = None /\
      before = [HeaderLine (out_cols Demo.args0 "timestamp")])).
Proof.
  apply (appended_block_sorted_by_time Demo.args0 "timestamp" ∅
           Demo.fs_after_group 0 Demo.group0).
  apply unwrap_is_ok. vm_compute. reflexivity.
Defined.

Lemma header_once_then_data_witness :
  one_header_at (out_csv_path Demo.args0 0) Demo.fs_after_blocked /\
  (exists ls, Demo.fs_after_blocked !! out_csv_path Demo.args0 0 = Some (File ls)).
Proof.
  split.
  - destruct (@header_once_then_data RectGeom.rect _) as (_ & _ & Hruns & _).
    apply (Hruns [(Demo.args0, Demo.grid, Demo.df);
                  (Demo.args0, Demo.grid, Demo.df_no_agent);
                  (Demo.args0, Demo.grid, Demo.df)]
                 (out_csv_path Demo.args0 0) Demo.fs_blocked).
    intros ls Hp. vm_compute in Hp. discriminate.
  - eexists. vm_compute. reflexivity.
Defined.

(** C8, as stated, fails twice. With an output file name supplied, runs
    with the bucket identifiers 0 and 1 write to the same file of a cell.
    And a file that is there before the first run without a header row, an
    empty file say, gets none: after a run it holds data rows only. *)
Lemma header_claim_fails :
  (bucket_id Demo.named0 <> bucket_id Demo.named1 /\
   out_csv_path Demo.named0 4 = out_csv_path Demo.named1 4) /\
  (main Demo.args0 Demo.grid Demo.df Demo.fs_empty_csv =
     Ok Demo.fs_after_empty_csv /\
   exists ls,
     Demo.fs_after_empty_csv !! out_csv_path Demo.args0 0 = Some (File ls) /\
     header_count ls = 0%nat).
Proof.
  split; [split; [discriminate|reflexivity]|].
  split; [apply unwrap_is_ok; vm_compute; reflexivity|].
  eexists. split; vm_compute; reflexivity.
Qed.

Lemma empty_join_leaves_files_witness :
  main Demo.args0 Demo.grid Demo.df_outside ∅ = Ok ∅.
Proof.
  destruct (empty_join_leaves_files Demo.args0 Demo.grid Demo.df_outside ∅)
    as [_ Hok].
  - vm_compute. reflexivity.
  - apply Hok.
    + repeat constructor.
    + repeat constructor.
    + exists "time". split; repeat constructor.
Defined.

End CsvProps.

(** ** More on the grid builder *)

Module GridExtra.
Import MakeGrid.

(** What a loop collects: when each pass appends to a list of the state a
    part that depends on the item alone, the loop appends the parts in
    order. *)
Lemma for_each_collect {St X A : Type} (proj : St -> list A) (g : X -> list A)
    (body : St -> X -> result St) :
  (forall s x s', body s x = Ok s' -> proj s' = proj s ++ g x) ->
  forall xs st st', for_each body xs st = Ok st' ->
    proj st' = proj st ++ flat_map g xs.
Proof.
  intros Hbody. induction xs as [|x xs IH]; intros st st' Hrun; simpl in Hrun.
  - injection Hrun as <-. simpl. now rewrite app_nil_r.
  - apply bind_Ok in Hrun as (s1 & H1 & H2).
    rewrite (IH _ _ H2), (Hbody _ _ _ H1). simpl. now rewrite app_assoc.
Qed.

(** A loop whose passes all succeed succeeds. *)
Lemma for_each_total {St X : Type} (body : St -> X -> result St) (xs : list X) :
  (forall x, x ∈ xs -> forall s, exists s', body s x = Ok s') ->
  forall st, exists st', for_each body xs st = Ok st'.
Proof.
  induction xs as [|x xs IH]; intros Hbody st; simpl; [eauto|].
  destruct (Hbody x (list_elem_of_here _ _) st) as (s1 & ->). simpl.
  apply IH. intros y Hy. apply Hbody. now right.
Qed.

(** A loop that succeeds has succeeded on every item. *)
Lemma for_each_Ok_all {St X : Type} (body : St -> X -> result St) (xs : list X) :
  forall st st', for_each body xs st = Ok st' ->
    forall x, x ∈ xs -> exists s s', body s x = Ok s'.
Proof.
  induction xs as [|x xs IH]; intros st st' Hrun y Hy; simpl in Hrun.
  - inversion Hy.
  - apply bind_Ok in Hrun as (s1 & H1 & H2).
    apply elem_of_cons in Hy as [->|Hy]; eauto.
Qed.

Section Scan.
Context {G : Type} `{Geometry G}.
Variables (CELL : Q) (utm : Z) (to_wgs : Transformer) (aoi_m : G).

(** The inner loop body by cases on the guards and on the type of the
    clip. *)
Lemma cell_step_eq (r c : Z) (st : LoopState G) :
  cell_step CELL utm to_wgs aoi_m (origin_x CELL aoi_m) (origin_y CELL aoi_m) r st c =
  if passes_guards CELL aoi_m r c then
    if polygonal (clip_at CELL aoi_m r c) then
      Ok (mkLoop
            (features_metric st ++
               [mkFeature (next_cell_id st) r c (Some (crs_to_string utm))
                          (area (clip_at CELL aoi_m r c)) (clip_at CELL aoi_m r c)])
            (features_wgs84 st ++
               [mkFeature (next_cell_id st) r c None
                          (area (clip_at CELL aoi_m r c))
                          (transform to_wgs (clip_at CELL aoi_m r c))])
            (next_cell_id st + 1))
    else Raise TypeError
  else Ok st.
Proof.
  unfold cell_step, passes_guards, clip_at, to_wgs_geom.
  destruct (intersects aoi_m _); simpl; [|done].
  destruct (is_empty _); simpl; [done|].
  destruct (polygonal _); reflexivity.
Qed.

Lemma cell_step_positions (r c : Z) (st st' : LoopState G) :
  cell_step CELL utm to_wgs aoi_m (origin_x CELL aoi_m) (origin_y CELL aoi_m) r st c
    = Ok st' ->
  pos <$> features_metric st' =
  (pos <$> features_metric st) ++
  (if passes_guards CELL aoi_m r c then [(r, c)] else []).
Proof.
  rewrite cell_step_eq. destruct (passes_guards CELL aoi_m r c).
  - destruct (polygonal _); [|discriminate]. intros [= <-]. simpl.
    now rewrite fmap_app.
  - intros [= <-]. now rewrite app_nil_r.
Qed.

Lemma build_grid_positions (st : LoopState G) :
  build_grid CELL utm to_wgs aoi_m = Ok st ->
  pos <$> features_metric st = scan_positions CELL aoi_m.
Proof.
  unfold build_grid. destruct (Qeq_bool CELL 0); [discriminate|]. intros Hrun.
  apply (for_each_collect (fun s => pos <$> features_metric s)
           (row_positions CELL aoi_m)) in Hrun; [exact Hrun|].
  intros s r s' Hrow. unfold row_step in Hrow.
  apply (for_each_collect (fun s => pos <$> features_metric s)
           (fun c => if passes_guards CELL aoi_m r c then [(r, c)] else []))
    in Hrow; [exact Hrow|].
  intros s1 c s2. apply cell_step_positions.
Qed.

Lemma cell_step_together (r c : Z) (st st' : LoopState G) :
  Forall2 (written_together utm to_wgs) (features_metric st) (features_wgs84 st) ->
  cell_step CELL utm to_wgs aoi_m (origin_x CELL aoi_m) (origin_y CELL aoi_m) r st c
    = Ok st' ->
  Forall2 (written_together utm to_wgs) (features_metric st') (features_wgs84 st').
Proof.
  intros Hall. rewrite cell_step_eq. destruct (passes_guards CELL aoi_m r c).
  - destruct (polygonal _); [|discriminate]. intros [= <-]. simpl.
    apply Forall2_app; [done|]. constructor; [|constructor].
    unfold written_together. simpl. repeat split.
  - now intros [= <-].
Qed.

Lemma build_grid_together (st : LoopState G) :
  build_grid CELL utm to_wgs aoi_m = Ok st ->
  Forall2 (written_together utm to_wgs) (features_metric st) (features_wgs84 st).
Proof.
  unfold build_grid. destruct (Qeq_bool CELL 0); [discriminate|]. intros Hrun.
  refine (for_each_preserves
            (fun s => Forall2 (written_together utm to_wgs)
                              (features_metric s) (features_wgs84 s))
            _ _ _ _ _ _ Hrun); [|constructor].
  intros s r s' Hs Hrow. unfold row_step in Hrow.
  refine (for_each_preserves
            (fun s => Forall2 (written_together utm to_wgs)
                              (features_metric s) (features_wgs84 s))
            _ _ _ _ _ Hs Hrow).
  intros s1 c s2. apply cell_step_together.
Qed.

End Scan.

Lemma length_flat_map_le {A B : Type} (f : A -> list B) (k : nat) (l : list A) :
  (forall x, (length (f x) <= k)%nat) ->
  (length (flat_map f l) <= length l * k)%nat.
Proof.
  intros Hf. induction l as [|x l IH]; simpl; [lia|].
  rewrite length_app. specialize (Hf x). lia.
Qed.

Section Main.
Context {G : Type} `{Geometry G}.

Lemma grid_main_Ok (CELL : Q) (aoi_wgs : G) (fm fw : list (Feature G)) :
  grid_main CELL aoi_wgs = Ok (fm, fw) ->
  exists st,
    build_grid CELL (chosen_utm aoi_wgs) (from_crs (chosen_utm aoi_wgs) 4326)
               (projected_aoi aoi_wgs) = Ok st /\
    fm = features_metric st /\ fw = features_wgs84 st.
Proof.
  unfold grid_main, project_poly. intros Hrun.
  destruct (polygonal aoi_wgs); [|discriminate]. simpl in Hrun.
  apply bind_Ok in Hrun as (st & Hgrid & Hout). injection Hout as <- <-.
  exists st. done.
Qed.

Lemma elem_of_scan_positions (CELL : Q) (aoi_m : G) (r c : Z) :
  (r, c) ∈ scan_positions CELL aoi_m <->
  in_grid CELL aoi_m r c /\ passes_guards CELL aoi_m r c = true.
Proof.
  unfold scan_positions, row_positions, in_grid.
  rewrite list_elem_of_In, in_flat_map. split.
  - intros (r' & Hr' & Hin). apply in_flat_map in Hin as (c' & Hc' & Hin).
    apply list_elem_of_In, elem_of_seqZ in Hr', Hc'.
    destruct (passes_guards CELL aoi_m r' c') eqn:Hp; [|inversion Hin].
    destruct Hin as [[= <- <-]|[]]. split; [lia|done].
  - intros ((Hr & Hc) & Hp). exists r. split.
    + apply list_elem_of_In, elem_of_seqZ. lia.
    + apply in_flat_map. exists c. split.
      * apply list_elem_of_In, elem_of_seqZ. lia.
      * rewrite Hp. now left.
Qed.

(** The emitted cells are the positions of the grid that pass the two
    guards, each once, in scan order: nothing that passes is left out and
    nothing else is emitted, in either output list. *)
Theorem emitted_positions_exact (CELL : Q) (aoi_wgs : G)
    (fm fw : list (Feature G)) :
  grid_main CELL aoi_wgs = Ok (fm, fw) ->
  let aoi_m := projected_aoi aoi_wgs in
  pos <$> fm = scan_positions CELL aoi_m /\
  pos <$> fw = scan_positions CELL aoi_m /\
  (forall r c, (exists f, f ∈ fm /\ pos f = (r, c)) <->
               in_grid CELL aoi_m r c /\ passes_guards CELL aoi_m r c = true).
Proof.
  intros Hrun aoi_m.
  apply grid_main_Ok in Hrun as (st & Hgrid & -> & ->).
  pose proof (build_grid_positions _ _ _ _ _ Hgrid) as Hpos.
  pose proof (GridProps.build_grid_inv _ _ _ _ _ Hgrid) as [_ _ _ Hposw _ _ _].
  split; [exact Hpos|]. split; [now rewrite Hposw|].
  intros r c. rewrite <- elem_of_scan_positions. fold aoi_m in Hpos.
  rewrite <- Hpos, list_elem_of_fmap. split.
  - intros (f & Hf & Hp). exists f. done.
  - intros (f & Hp & Hf). exists f. done.
Qed.

(** The two output lists run in step: the features at one index carry the
    same identifier, row, column and area, the area is that of the metric
    geometry, the metric feature alone carries the coordinate-system tag,
    and the WGS84 geometry is the metric geometry mapped back through the
    transformer. *)
Theorem outputs_written_together (CELL : Q) (aoi_wgs : G)
    (fm fw : list (Feature G)) :
  grid_main CELL aoi_wgs = Ok (fm, fw) ->
  Forall2 (written_together (chosen_utm aoi_wgs)
                            (from_crs (chosen_utm aoi_wgs) 4326)) fm fw.
Proof.
  intros Hrun. apply grid_main_Ok in Hrun as (st & Hgrid & -> & ->).
  eapply build_grid_together. exact Hgrid.
Qed.

(** Both output lists have the same length. When the row count and the
    column count are not negative, the number of emitted cells is at most
    their product, the number the script announces before the scan; when
    one of them is zero or negative no cell is emitted, whatever the
    announced product. *)
Theorem cell_count_bounded (CELL : Q) (aoi_wgs : G) (fm fw : list (Feature G)) :
  grid_main CELL aoi_wgs = Ok (fm, fw) ->
  let rows := n_rows CELL (projected_aoi aoi_wgs) in
  let cols := n_cols CELL (projected_aoi aoi_wgs) in
  length fw = length fm /\
  (0 <= rows -> 0 <= cols -> Z.of_nat (length fm) <= rows * cols) /\
  (rows <= 0 \/ cols <= 0 -> fm = [] /\ fw = []).
Proof.
  intros Hrun rows cols. set (aoi_m := projected_aoi aoi_wgs) in *.
  apply grid_main_Ok in Hrun as (st & Hgrid & -> & ->).
  pose proof (build_grid_positions _ _ _ _ _ Hgrid) as Hpos.
  pose proof (build_grid_together _ _ _ _ _ Hgrid) as Hpair.
  assert (Hlen : length (features_wgs84 st) = length (features_metric st))
    by (symmetry; eapply Forall2_length; exact Hpair).
  fold aoi_m in Hpos.
  assert (Hrow : forall r, (length (row_positions CELL aoi_m r)
                            <= Z.to_nat cols)%nat).
  { intros r. unfold row_positions.
    pose proof (length_flat_map_le
                  (fun c => if passes_guards CELL aoi_m r c then [(r, c)] else [])
                  1 (seqZ 0 (n_cols CELL aoi_m))) as Hle.
    rewrite length_seqZ in Hle.
    assert (Hone : forall c, (length (if passes_guards CELL aoi_m r c
                                      then [(r, c)] else []) <= 1)%nat).
    { intros c. destruct (passes_guards CELL aoi_m r c); simpl; lia. }
    specialize (Hle Hone). subst cols. lia. }
  pose proof (length_flat_map_le (row_positions CELL aoi_m) _
                (seqZ 0 (n_rows CELL aoi_m)) Hrow) as Hle.
  change (flat_map (row_positions CELL aoi_m) (seqZ 0 (n_rows CELL aoi_m)))
    with (scan_positions CELL aoi_m) in Hle.
  rewrite <- Hpos, length_fmap, length_seqZ in Hle. fold rows in Hle.
  split; [exact Hlen|]. split.
  - intros Hr Hc. nia.
  - intros Hneg.
    assert (Hz : length (features_metric st) = 0%nat) by (destruct Hneg; nia).
    rewrite Hz in Hlen.
    split; now apply length_zero_iff_nil.
Qed.

(** The inner loop body at any origin, by cases on the two guards and on
    the type of the clip. *)
Lemma cell_step_cases (CELL : Q) (utm : Z) (to_wgs : Transformer) (aoi_m : G)
    (sx sy : Q) (r c : Z) (st : LoopState G) :
  let clip := intersection (footprint CELL sx sy r c) aoi_m in
  (intersects aoi_m (footprint CELL sx sy r c) && negb (is_empty clip) = false ->
   cell_step CELL utm to_wgs aoi_m sx sy r st c = Ok st) /\
  (intersects aoi_m (footprint CELL sx sy r c) && negb (is_empty clip) = true ->
   (polygonal clip = true ->
    exists st', cell_step CELL utm to_wgs aoi_m sx sy r st c = Ok st') /\
   (polygonal clip = false ->
    cell_step CELL utm to_wgs aoi_m sx sy r st c = Raise TypeError)).
Proof.
  intros clip. unfold cell_step, to_wgs_geom. fold clip.
  destruct (intersects aoi_m _); simpl; [|split; [done|discriminate]].
  destruct (is_empty clip); simpl; [split; [done|discriminate]|].
  split; [discriminate|]. intros _.
  destruct (polygonal clip); simpl; split; try done; eauto.
Qed.

(** The double loop of lines 92 to 118, from any origin, any counts and
    any state: it runs to its end exactly when every footprint of the
    scan that passes both guards clips to a polygon or multi-polygon; and
    when it stops, it stops with the [TypeError] of [to_wgs_geom], at a
    footprint of the scan whose clip is not empty and is neither (a
    footprint that only touches the AOI along a line or at a point). *)
Theorem scan_succeeds_iff_clips_polygonal (CELL : Q) (utm : Z)
    (to_wgs : Transformer) (aoi_m : G) (sx sy : Q) (cols rows : Z)
    (st : LoopState G) :
  let clip r c := intersection (footprint CELL sx sy r c) aoi_m in
  let kept r c :=
    intersects aoi_m (footprint CELL sx sy r c) && negb (is_empty (clip r c)) in
  let scan :=
    for_each (row_step CELL utm to_wgs aoi_m sx sy cols) (seqZ 0 rows) st in
  ((exists st', scan = Ok st') <->
   (forall r c, 0 <= r < rows -> 0 <= c < cols ->
      kept r c = true -> polygonal (clip r c) = true)) /\
  (forall e, scan = Raise e ->
     e = TypeError /\
     exists r c, 0 <= r < rows /\ 0 <= c < cols /\
       kept r c = true /\ polygonal (clip r c) = false).
Proof.
  intros clip kept scan. split; [split|].
  - intros (st' & Hrun) r c Hr Hc Hk.
    destruct (for_each_Ok_all _ _ _ _ Hrun r) as (s & s' & Hrow);
      [apply elem_of_seqZ; lia|].
    unfold row_step in Hrow.
    destruct (for_each_Ok_all _ _ _ _ Hrow c) as (s1 & s2 & Hcell);
      [apply elem_of_seqZ; lia|].
    destruct (cell_step_cases CELL utm to_wgs aoi_m sx sy r c s1) as (_ & Hyes).
    destruct (Hyes Hk) as (_ & Hbad).
    destruct (polygonal (clip r c)) eqn:Hp; [done|].
    rewrite (Hbad Hp) in Hcell. discriminate.
  - intros Hall. apply for_each_total. intros r Hr s. unfold row_step.
    apply for_each_total. intros c Hc s1. apply elem_of_seqZ in Hr, Hc.
    destruct (cell_step_cases CELL utm to_wgs aoi_m sx sy r c s1) as (Hno & Hyes).
    destruct (kept r c) eqn:Hk.
    + destruct (Hyes Hk) as (Hgood & _). apply Hgood. apply Hall; [lia|lia|done].
    + rewrite (Hno Hk). eauto.
  - intros e Hrun. apply for_each_Raise_in in Hrun as (s & r & Hr & Hrow).
    unfold row_step in Hrow.
    apply for_each_Raise_in in Hrow as (s1 & c & Hc & Hcell).
    apply elem_of_seqZ in Hr, Hc.
    destruct (cell_step_cases CELL utm to_wgs aoi_m sx sy r c s1) as (Hno & Hyes).
    destruct (kept r c) eqn:Hk; [|rewrite (Hno Hk) in Hcell; discriminate].
    destruct (Hyes Hk) as (Hgood & Hbad).
    destruct (polygonal (clip r c)) eqn:Hp.
    + destruct (Hgood Hp) as (st' & Hst'). congruence.
    + rewrite (Hbad Hp) in Hcell. injection Hcell as <-.
      split; [done|]. exists r, c. repeat split; try lia; done.
Qed.

End Main.

Lemma emitted_positions_exact_witness :
  pos <$> RectGeom.offset_metric = scan_positions 100 RectGeom.aoi_offset.
Proof.
  destruct (emitted_positions_exact 100 RectGeom.aoi_offset
              RectGeom.offset_metric RectGeom.offset_wgs84) as (Hpos & _).
  - vm_compute. reflexivity.
  - exact Hpos.
Defined.

Lemma outputs_written_together_witness :
  Forall2 (written_together 32656 (from_crs 32656 4326))
          RectGeom.offset_metric RectGeom.offset_wgs84.
Proof.
  assert (Hrun : grid_main 100 RectGeom.aoi_offset =
                 Ok (RectGeom.offset_metric, RectGeom.offset_wgs84))
    by (vm_compute; reflexivity).
  exact (outputs_written_together 100 RectGeom.aoi_offset _ _ Hrun).
Defined.

Lemma cell_count_bounded_witness :
  Z.of_nat (length RectGeom.offset_metric) <= 2 * 3.
Proof.
  destruct (cell_count_bounded 100 RectGeom.aoi_offset
              RectGeom.offset_metric RectGeom.offset_wgs84) as (_ & Hle & _).
  - vm_compute. reflexivity.
  - apply Hle; vm_compute; discriminate.
Defined.

End GridExtra.

(** ** project_poly and to_wgs_geom, ring by ring *)

Module RingProps.
Import Rings.

Section Shapes.
Context {C : Type}.

(** A comprehension whose function fails exactly off a guard is the plain
    map under the guard on every item. *)
Lemma map_result_guarded {A B : Type} (f : A -> result B) (ok : A -> bool)
    (g : A -> B) (e : PyError) (xs : list A) :
  (forall x, f x = if ok x then Ok (g x) else Raise e) ->
  map_result f xs = if forallb ok xs then Ok (map g xs) else Raise e.
Proof.
  intros Hf. induction xs as [|x xs IH]; simpl; [done|].
  rewrite Hf. destruct (ok x); simpl; [|done].
  rewrite IH. destruct (forallb ok xs); reflexivity.
Qed.

Lemma transform_coords_eq (tr : C -> C) (ring : list C) :
  transform_coords tr ring =
  if (match ring with [] => false | _ :: _ => true end)
  then Ok (map tr ring) else Raise TypeError.
Proof. destruct ring; reflexivity. Qed.

Lemma project_polygon_eq (tr : C -> C) (p : PolygonRings C) :
  project_polygon tr p =
  if polygon_has_coords p then Ok (map_polygon tr p) else Raise TypeError.
Proof.
  unfold project_polygon, polygon_has_coords, map_polygon.
  destruct (exterior p) as [|c ext]; simpl; [done|].
  rewrite (map_result_guarded _ _ (map tr) TypeError _ (transform_coords_eq tr)).
  destruct (forallb _ (interiors p)); reflexivity.
Qed.

Lemma project_poly_eq (geom : Shape C) (tr : C -> C) :
  project_poly geom tr =
  if shape_has_coords geom then Ok (map_shape tr geom) else Raise TypeError.
Proof.
  destruct geom as [p|geoms|]; simpl; [| |done].
  - rewrite project_polygon_eq. destruct (polygon_has_coords p); reflexivity.
  - rewrite (map_result_guarded _ _ (map_polygon tr) TypeError _
               (project_polygon_eq tr)).
    destruct (forallb polygon_has_coords geoms); reflexivity.
Qed.

Lemma to_wgs_geom_project_poly (geom : Shape C) (tr : C -> C) :
  to_wgs_geom geom tr = project_poly geom tr.
Proof. reflexivity. Qed.

Lemma polygon_has_coords_map (tr : C -> C) (p : PolygonRings C) :
  polygon_has_coords (map_polygon tr p) = polygon_has_coords p.
Proof.
  unfold polygon_has_coords, map_polygon. simpl.
  destruct (exterior p); simpl; [done|].
  induction (interiors p) as [|ring rings IH]; simpl; [done|].
  rewrite IH. destruct ring; reflexivity.
Qed.

Lemma shape_has_coords_map (tr : C -> C) (geom : Shape C) :
  shape_has_coords (map_shape tr geom) = shape_has_coords geom.
Proof.
  destruct geom as [p|geoms|]; simpl; [apply polygon_has_coords_map| |done].
  induction geoms as [|p geoms IH]; simpl; [done|].
  now rewrite polygon_has_coords_map, IH.
Qed.

Lemma map_polygon_inverse (fwd back : C -> C) (p : PolygonRings C) :
  (forall c, c ∈ polygon_coords p -> back (fwd c) = c) ->
  map_polygon back (map_polygon fwd p) = p.
Proof.
  destruct p as [ext ints]. unfold polygon_coords, map_polygon. simpl.
  intros Hinv. f_equal.
  - rewrite map_map. rewrite <- (map_id ext) at 2. apply map_ext_in.
    intros c Hc. apply Hinv, elem_of_app. left. now apply list_elem_of_In.
  - rewrite map_map. rewrite <- (map_id ints) at 2. apply map_ext_in.
    intros ring Hring. rewrite map_map. rewrite <- (map_id ring) at 2.
    apply map_ext_in. intros c Hc. apply Hinv, elem_of_app. right.
    apply list_elem_of_In, in_concat. eauto.
Qed.

Lemma map_shape_inverse (fwd back : C -> C) (geom : Shape C) :
  (forall c, c ∈ shape_coords geom -> back (fwd c) = c) ->
  map_shape back (map_shape fwd geom) = geom.
Proof.
  destruct geom as [p|geoms|]; simpl; intros Hinv; [| |done].
  - f_equal. now apply map_polygon_inverse.
  - f_equal. rewrite map_map. rewrite <- (map_id geoms) at 2. apply map_ext_in.
    intros p Hp. apply map_polygon_inverse. intros c Hc. apply Hinv.
    apply list_elem_of_In, in_flat_map. exists p. split; [done|].
    now apply list_elem_of_In.
Qed.

Lemma closed_ring_map (tr : C -> C) (ring : list C) :
  closed_ring ring -> closed_ring (map tr ring).
Proof.
  unfold closed_ring. intros Hc.
  assert (Hh : head (map tr ring) = tr <$> head ring) by (destruct ring; done).
  assert (Hl : last (map tr ring) = tr <$> last ring) by apply fmap_last.
  rewrite Hh, Hl. now rewrite Hc.
Qed.

(** Projection keeps the layout of a geometry: the same number of polygons,
    for each the same number of holes, for each ring the same number of
    coordinates; and rings that were closed stay closed. *)
Theorem project_poly_keeps_holes (geom geom' : Shape C) (tr : C -> C) :
  project_poly geom tr = Ok geom' ->
  shape_layout geom' = shape_layout geom /\
  (Forall closed_ring (shape_rings geom) -> Forall closed_ring (shape_rings geom')).
Proof.
  rewrite project_poly_eq. destruct (shape_has_coords geom); [|discriminate].
  intros [= <-].
  assert (Hlay : forall p : PolygonRings C,
            polygon_layout (map_polygon tr p) = polygon_layout p).
  { intros p. unfold polygon_layout, map_polygon. simpl.
    rewrite length_map, map_map. f_equal. apply map_ext. intros r.
    apply length_map. }
  assert (Hrings : forall p : PolygonRings C,
            Forall closed_ring (exterior p :: interiors p) ->
            Forall closed_ring (exterior (map_polygon tr p) ::
                                interiors (map_polygon tr p))).
  { intros p Hp. simpl. apply Forall_cons in Hp as [He Hi]. constructor.
    - now apply closed_ring_map.
    - rewrite Forall_forall in Hi. apply Forall_forall. intros r Hr.
      apply list_elem_of_fmap in Hr as (r0 & -> & Hr0).
      apply closed_ring_map. auto. }
  destruct geom as [p|geoms|]; simpl.
  - split; [now rewrite Hlay|apply Hrings].
  - split.
    + rewrite map_map. apply map_ext. exact Hlay.
    + induction geoms as [|p geoms IH]; simpl; [done|].
      intros Hall. change (exterior p :: interiors p ++ _)
        with ((exterior p :: interiors p) ++
              flat_map (fun p => exterior p :: interiors p) geoms) in Hall.
      apply Forall_app in Hall as [Hp Hrest].
      change (Forall closed_ring
                ((exterior (map_polygon tr p) :: interiors (map_polygon tr p)) ++
                 flat_map (fun p => exterior p :: interiors p)
                          (map (map_polygon tr) geoms))).
      apply Forall_app. split; [now apply Hrings|now apply IH].
  - done.
Qed.

(** Round trip: when the second transformer undoes the first on the
    coordinates of a geometry, projecting with the first and mapping back
    with the second returns the geometry, holes included. *)
Theorem project_then_to_wgs (geom geom' : Shape C) (fwd back : C -> C) :
  (forall c, c ∈ shape_coords geom -> back (fwd c) = c) ->
  project_poly geom fwd = Ok geom' ->
  to_wgs_geom geom' back = Ok geom.
Proof.
  intros Hinv Hproj. rewrite project_poly_eq in Hproj.
  change (project_poly geom' back = Ok geom). rewrite project_poly_eq.
  destruct (shape_has_coords geom) eqn:Hok; [|discriminate].
  injection Hproj as <-. rewrite shape_has_coords_map, Hok.
  now rewrite map_shape_inverse.
Qed.

End Shapes.

(** On a geometry whose coordinates are pairs (no z values), [project_poly],
    and [to_wgs_geom] with it, returns the geometry with the transformer
    applied to every coordinate of every ring, and raises [TypeError] in
    two cases: the geometry is neither a polygon nor a multi-polygon, or
    one of its rings has no coordinate. *)
Theorem project_poly_pointwise (geom : Shape (Q * Q)) (tr : Q * Q -> Q * Q) :
  project_poly geom tr =
    (if shape_has_coords geom then Ok (map_shape tr geom) else Raise TypeError) /\
  to_wgs_geom geom tr = project_poly geom tr.
Proof. split; [apply project_poly_eq|reflexivity]. Qed.

Lemma project_poly_keeps_holes_witness :
  shape_layout (map_shape shift_east holed_square) = [(5%nat, [5%nat])].
Proof.
  destruct (project_poly_keeps_holes holed_square
              (map_shape shift_east holed_square) shift_east) as [Hlay _].
  - reflexivity.
  - exact Hlay.
Defined.

Lemma project_then_to_wgs_witness :
  to_wgs_geom (map_shape shift_east holed_square) shift_west = Ok holed_square.
Proof.
  apply (project_then_to_wgs holed_square _ shift_east shift_west).
  - intros [x y] _. unfold shift_east, shift_west. simpl. f_equal. lia.
  - reflexivity.
Defined.

End RingProps.

(** ** The coordinate-system tag *)

Module TagProps.
Import CrsTag.

Lemma pretty_char_digit (x : N) : is_digit (pretty_N_char x) = true.
Proof. unfold pretty_N_char. repeat case_match; reflexivity. Qed.

Lemma pretty_char_value (x : N) :
  (x < 10)%N -> Z.of_N (Ascii.N_of_ascii (pretty_N_char x)) - 48 = Z.of_N x.
Proof.
  intros Hx.
  assert (Hcases : x = 0%N \/ x = 1%N \/ x = 2%N \/ x = 3%N \/ x = 4%N \/
                   x = 5%N \/ x = 6%N \/ x = 7%N \/ x = 8%N \/ x = 9%N) by lia.
  repeat (destruct Hcases as [->|Hcases]; [reflexivity|]). now subst.
Qed.

Lemma digit_not_space (a : Ascii.ascii) : is_digit a = true -> is_space a = false.
Proof.
  unfold is_digit, is_space. intros Hd.
  apply andb_prop in Hd as [H1 H2]. apply N.leb_le in H1, H2.
  destruct (_ <=? _)%N eqn:E1, (Ascii.N_of_ascii a <=? 13)%N eqn:E2,
           (28 <=? _)%N eqn:E3, (Ascii.N_of_ascii a <=? 32)%N eqn:E4;
    simpl; try done;
    repeat match goal with
           | E : (_ <=? _)%N = true |- _ => apply N.leb_le in E
           | E : (_ <=? _)%N = false |- _ => apply N.leb_gt in E
           end; lia.
Qed.

(** The digits stdpp's [pretty] prints, read back. *)
Lemma int_from_pretty_go (n : N) :
  forall s, int_from 0 (pretty_N_go n s) = int_from (Z.of_N n) s.
Proof.
  induction (N.lt_wf_0 n) as [n _ IH]. intros s.
  destruct (decide (n = 0)%N) as [->|Hn]; [now rewrite pretty_N_go_0|].
  rewrite pretty_N_go_step by lia.
  rewrite IH by (apply N.div_lt; lia). simpl.
  rewrite pretty_char_value by (apply N.mod_lt; lia). f_equal.
  rewrite (N.div_mod n 10) at 3 by lia. lia.
Qed.

Lemma leading_digits_pretty_go (n : N) :
  forall s, leading_digits (pretty_N_go n s) = pretty_N_go n (leading_digits s).
Proof.
  induction (N.lt_wf_0 n) as [n _ IH]. intros s.
  destruct (decide (n = 0)%N) as [->|Hn]; [now rewrite !pretty_N_go_0|].
  rewrite (pretty_N_go_step n s), (pretty_N_go_step n (leading_digits s)) by lia.
  rewrite IH by (apply N.div_lt; lia). cbn [leading_digits].
  now rewrite pretty_char_digit.
Qed.

Lemma pretty_go_app (n : N) :
  forall s t, pretty_N_go n s +:+ t = pretty_N_go n (s +:+ t).
Proof.
  induction (N.lt_wf_0 n) as [n _ IH]. intros s t.
  destruct (decide (n = 0)%N) as [->|Hn]; [now rewrite !pretty_N_go_0|].
  rewrite (pretty_N_go_step n s), (pretty_N_go_step n (s +:+ t)) by lia.
  now rewrite IH by (apply N.div_lt; lia).
Qed.

Lemma pretty_go_head (n : N) :
  forall s, (0 < n)%N ->
    exists a rest, pretty_N_go n s = String a rest /\ is_digit a = true.
Proof.
  induction (N.lt_wf_0 n) as [n _ IH]. intros s Hn.
  rewrite pretty_N_go_step by done.
  destruct (decide (n `div` 10 = 0)%N) as [Hz|Hz].
  - rewrite Hz, pretty_N_go_0. eexists _, _. split; [done|].
    apply pretty_char_digit.
  - apply IH; [apply N.div_lt; lia|now apply N.neq_0_lt_0].
Qed.

(** What the parser needs of the decimal text of a natural number followed
    by something that does not start with a digit. *)
Lemma digits_then_rest (e : Z) (rest : string) :
  0 <= e -> leading_digits rest = "" ->
  exists a ds,
    pretty e +:+ rest = String a ds /\ is_digit a = true /\
    leading_digits (pretty e +:+ rest) = pretty e /\
    pretty e <> "" /\ int_of_digits (pretty e) = e.
Proof.
  intros He Hrest. destruct e as [|p|p]; [| |lia].
  - exists (pretty_N_char 0), rest. repeat split; try done.
    change (pretty 0 +:+ rest) with (String (pretty_N_char 0) rest).
    simpl. now rewrite Hrest.
  - change (pretty (Z.pos p)) with (pretty_N_go (N.pos p) "").
    rewrite pretty_go_app. change ("" +:+ rest) with rest.
    destruct (pretty_go_head (N.pos p) rest) as (a & ds & Heq & Hd); [lia|].
    exists a, ds. split; [done|]. split; [done|]. split; [|split].
    + now rewrite leading_digits_pretty_go, Hrest.
    + destruct (pretty_go_head (N.pos p) "") as (a' & ds' & Heq' & _); [lia|].
      rewrite Heq'. done.
    + unfold int_of_digits. rewrite int_from_pretty_go. simpl. lia.
Qed.

Lemma skip_spaces_blank (sp t : string) :
  blank sp = true -> skip_spaces (sp +:+ t) = skip_spaces t.
Proof.
  induction sp as [|a sp IH]; simpl; [done|].
  intros Hb. apply andb_prop in Hb as [Ha Hsp].
  change (String a sp +:+ t) with (String a (sp +:+ t)). simpl.
  rewrite Ha. auto.
Qed.

Lemma search_here (s ds : string) : match_here s = Some ds -> search s = Some ds.
Proof.
  intros Hm. destruct s as [|a s]; [discriminate|].
  change (search (String a s))
    with (match match_here (String a s) with
          | Some ds' => Some ds'
          | None => search s
          end).
  now rewrite Hm.
Qed.

Lemma parse_tag_general (c1 c2 c3 c4 : Ascii.ascii) (sp1 sp2 rest : string) (e : Z) :
  epsg_letters c1 c2 c3 c4 = true ->
  blank sp1 = true -> blank sp2 = true ->
  0 <= e -> leading_digits rest = "" ->
  GridCsv.parse_epsg
    (String c1 (String c2 (String c3 (String c4
       (sp1 +:+ ":" +:+ sp2 +:+ pretty e +:+ rest))))) = Some e.
Proof.
  intros Hl Hs1 Hs2 He Hrest.
  unfold GridCsv.parse_epsg. rewrite bool_decide_eq_false_2 by discriminate.
  unfold epsg_in.
  destruct (digits_then_rest e rest He Hrest) as (a & ds & Heq & Hd & Hld & Hne & Hint).
  assert (Hm : match_here
            (String c1 (String c2 (String c3 (String c4
               (sp1 +:+ ":" +:+ sp2 +:+ pretty e +:+ rest))))) = Some (pretty e)).
  { unfold match_here. unfold epsg_letters in Hl. rewrite Hl.
    rewrite (skip_spaces_blank sp1) by done.
    change (":" +:+ sp2 +:+ pretty e +:+ rest)
      with (String (Ascii.ascii_of_N code_colon) (sp2 +:+ pretty e +:+ rest)).
    simpl skip_spaces at 1.
    change (is_space (Ascii.ascii_of_N code_colon)) with false. cbv iota.
    change (Ascii.N_of_ascii (Ascii.ascii_of_N code_colon) =? code_colon)%N
      with true. cbv iota.
    rewrite (skip_spaces_blank sp2) by done.
    rewrite Heq. simpl skip_spaces. rewrite (digit_not_space a Hd).
    rewrite <- Heq, Hld. destruct (pretty e); [done|reflexivity]. }
  rewrite (search_here _ _ Hm). simpl. now rewrite Hint.
Qed.

Lemma parse_crs_to_string (e : Z) :
  0 <= e -> GridCsv.parse_epsg (MakeGrid.crs_to_string e) = Some e.
Proof.
  intros He.
  pose proof (parse_tag_general (Ascii.ascii_of_N 69) (Ascii.ascii_of_N 80)
                (Ascii.ascii_of_N 83) (Ascii.ascii_of_N 71) "" "" "" e
                eq_refl eq_refl eq_refl He eq_refl) as Hgen.
  assert (Happ : forall s : string, s +:+ "" = s).
  { induction s as [|b s IH]; [done|].
    change (String b s +:+ "") with (String b (s +:+ "")). now rewrite IH. }
  rewrite Happ in Hgen. exact Hgen.
Qed.

(** The tag is found whatever the case of its four letters, with white
    space on either side of the colon, and its digits are read as a decimal
    number up to the first character that is not a digit: in particular
    the text [EPSG:<code>] that the grid builder writes is read back as
    the code. *)
Theorem tag_read_back (c1 c2 c3 c4 : Ascii.ascii) (sp1 sp2 rest : string) (e : Z) :
  epsg_letters c1 c2 c3 c4 = true ->
  blank sp1 = true -> blank sp2 = true ->
  0 <= e -> leading_digits rest = "" ->
  GridCsv.parse_epsg
    (String c1 (String c2 (String c3 (String c4
       (sp1 +:+ ":" +:+ sp2 +:+ pretty e +:+ rest))))) = Some e /\
  GridCsv.parse_epsg (MakeGrid.crs_to_string e) = Some e.
Proof.
  intros Hl Hs1 Hs2 He Hrest.
  split; [now apply parse_tag_general|now apply parse_crs_to_string].
Qed.

Lemma tag_read_back_witness :
  GridCsv.parse_epsg "epSG  : 32733 (UTM 33S)" = Some 32733 /\
  GridCsv.parse_epsg (MakeGrid.crs_to_string 32733) = Some 32733.
Proof.
  apply (tag_read_back (Ascii.ascii_of_N 101) (Ascii.ascii_of_N 112)
           (Ascii.ascii_of_N 83) (Ascii.ascii_of_N 71) "  " " " " (UTM 33S)" 32733);
    first [reflexivity | discriminate].
Defined.

Section Builder.
Context {G : Type} `{Geometry G}.

Lemma get_utm_none (fw : list (MakeGrid.Feature G)) :
  Forall (fun w => MakeGrid.utm_crs w = None) fw ->
  GridCsv.get_utm_from_features fw = None.
Proof.
  induction 1 as [|w fw Hw _ IH]; simpl; [done|].
  unfold GridCsv.utm_crs_text. now rewrite Hw.
Qed.

Lemma together_tags (utm : Z) (to_wgs : Transformer)
    (fm fw : list (MakeGrid.Feature G)) :
  Forall2 (MakeGrid.written_together utm to_wgs) fm fw ->
  Forall (fun m => MakeGrid.utm_crs m = Some (MakeGrid.crs_to_string utm)) fm /\
  Forall (fun w => MakeGrid.utm_crs w = None) fw.
Proof.
  induction 1 as [|m w fm fw Hmw _ [IHm IHw]]; [split; constructor|].
  destruct Hmw as (_ & _ & _ & _ & _ & Htag & Hnone & _).
  split; constructor; done.
Qed.

(** The tag of the metric output is read back by the exporter: for a run
    of the builder that emitted a cell under a positive code,
    [get_utm_from_features] finds the builder's code in the metric features
    and none in the WGS84 features. *)
Theorem builder_code_recovered (CELL : Q) (aoi_wgs : G)
    (fm fw : list (MakeGrid.Feature G)) :
  MakeGrid.grid_main CELL aoi_wgs = Ok (fm, fw) ->
  fm <> [] -> 0 < MakeGrid.chosen_utm aoi_wgs ->
  GridCsv.get_utm_from_features fm = Some (MakeGrid.chosen_utm aoi_wgs) /\
  GridCsv.get_utm_from_features fw = None.
Proof.
  intros Hrun Hne Hpos.
  apply GridExtra.grid_main_Ok in Hrun as (st & Hgrid & -> & ->).
  pose proof (GridExtra.build_grid_together _ _ _ _ _ Hgrid) as Hpair.
  set (utm := MakeGrid.chosen_utm aoi_wgs) in *.
  destruct (together_tags _ _ _ _ Hpair) as [Hm Hw].
  assert (Hparse : GridCsv.parse_epsg (MakeGrid.crs_to_string utm) = Some utm)
    by (apply parse_crs_to_string; lia).
  destruct (MakeGrid.features_metric st) as [|m fm] eqn:Hfm; [done|].
  apply Forall_cons in Hm as [Hm0 _].
  split.
  - simpl. unfold GridCsv.utm_crs_text. rewrite Hm0, Hparse.
    destruct (utm =? 0) eqn:Hz; [lia|done].
  - now apply get_utm_none.
Qed.

End Builder.

Lemma builder_code_recovered_witness :
  GridCsv.get_utm_from_features RectGeom.offset_metric = Some 32656 /\
  GridCsv.get_utm_from_features RectGeom.offset_wgs84 = None.
Proof.
  destruct (builder_code_recovered 100 RectGeom.aoi_offset
              RectGeom.offset_metric RectGeom.offset_wgs84) as (Hm & Hw).
  - vm_compute. reflexivity.
  - discriminate.
  - reflexivity.
  - split; [exact Hm|exact Hw].
Defined.

End TagProps.

(** ** More on the bucketizer *)

Module CsvExtra.
Import CellCsvs.

(** *** The time column *)

Lemma find_first {A : Type} (f : A -> bool) (l : list A) (x : A) :
  List.find f l = Some x ->
  exists before after,
    l = before ++ x :: after /\ f x = true /\ Forall (fun y => f y = false) before.
Proof.
  induction l as [|a l IH]; simpl; [discriminate|].
  destruct (f a) eqn:Ha.
  - intros [= ->]. exists [], l. repeat split; [done|constructor].
  - intros Hfind. destruct (IH Hfind) as (before & after & -> & Hx & Hb).
    exists (a :: before), after. repeat split; [done|]. now constructor.
Qed.

(** [find_time_column] returns the first of the names timestamp, time,
    datetime, date_time, ts that is a column of the table, and raises
    [ValueError], and nothing else, exactly when none of them is. *)
Theorem find_time_column_first (df : DataFrame) :
  (forall c, find_time_column df = Ok c ->
     exists before after,
       time_candidates = before ++ c :: after /\ c ∈ columns df /\
       Forall (fun b => b ∉ columns df) before) /\
  (forall e, find_time_column df = Raise e <->
     e = ValueError /\ Forall (fun c => c ∉ columns df) time_candidates).
Proof.
  unfold find_time_column. split.
  - intros c Hc.
    destruct (List.find _ time_candidates) as [c'|] eqn:Hfind; [|discriminate].
    injection Hc as ->.
    destruct (find_first _ _ _ Hfind) as (before & after & Heq & Hin & Hb).
    exists before, after. split; [done|]. split.
    + now apply bool_decide_eq_true_1 in Hin.
    + eapply Forall_impl; [exact Hb|]. intros b Hf. simpl in Hf.
      now apply bool_decide_eq_false_1 in Hf.
  - intros e.
    destruct (List.find _ time_candidates) as [c'|] eqn:Hfind; split.
    + discriminate.
    + intros [_ Hnone]. exfalso.
      destruct (find_first _ _ _ Hfind) as (before & after & Heq & Hin & _).
      apply bool_decide_eq_true_1 in Hin. rewrite Forall_forall in Hnone.
      apply (Hnone c'); [|done]. rewrite Heq. apply elem_of_app. right. left.
    + intros [= <-]. split; [done|]. apply Forall_forall. intros c Hc.
      apply list_elem_of_In in Hc. apply (List.find_none _ _ Hfind) in Hc.
      now apply bool_decide_eq_false_1 in Hc.
    + now intros [-> _].
Qed.

Lemma find_time_column_first_witness :
  exists before after,
    time_candidates = before ++ "time" :: after /\
    "time" ∈ columns Demo.df_outside /\
    Forall (fun b => b ∉ columns Demo.df_outside) before.
Proof.
  destruct (find_time_column_first Demo.df_outside) as [Hfirst _].
  apply Hfirst. reflexivity.
Defined.

(** *** Groups *)

Lemma elem_of_insert_key (x k : Z) (ks : list Z) :
  x ∈ insert_key k ks <-> x = k \/ x ∈ ks.
Proof.
  induction ks as [|k' ks IH]; simpl.
  - rewrite list_elem_of_singleton. split; [now left|].
    intros [->|Hin]; [done|inversion Hin].
  - destruct (k <? k') eqn:Hlt; [now rewrite elem_of_cons|].
    destruct (k =? k') eqn:Heq.
    + apply Z.eqb_eq in Heq as ->. rewrite elem_of_cons. tauto.
    + rewrite !elem_of_cons, IH. tauto.
Qed.

Lemma insert_key_sorted (k : Z) (ks : list Z) :
  StronglySorted Z.lt ks -> StronglySorted Z.lt (insert_key k ks).
Proof.
  induction 1 as [|k' ks Hs IH Hk']; simpl.
  - repeat constructor.
  - destruct (k <? k') eqn:Hlt.
    + apply Z.ltb_lt in Hlt. constructor; [by constructor|].
      constructor; [done|]. eapply Forall_impl; [exact Hk'|].
      intros y Hy. simpl in Hy. lia.
    + destruct (k =? k') eqn:Heq; [by constructor|].
      apply Z.ltb_ge in Hlt. apply Z.eqb_neq in Heq.
      constructor; [done|]. apply Forall_forall. intros y Hy.
      apply elem_of_insert_key in Hy as [->|Hy]; [lia|].
      rewrite Forall_forall in Hk'. auto.
Qed.

Lemma group_keys_sorted (joined : list OutRow) :
  StronglySorted Z.lt (group_keys joined).
Proof.
  unfold group_keys. induction (map o_cell_id joined) as [|k ks IH]; simpl.
  - constructor.
  - now apply insert_key_sorted.
Qed.

Lemma elem_of_group_keys (k : Z) (joined : list OutRow) :
  k ∈ group_keys joined <-> exists r, r ∈ joined /\ o_cell_id r = k.
Proof.
  unfold group_keys. induction joined as [|r joined IH]; simpl.
  - split; [inversion 1|]. intros (r & Hr & _). inversion Hr.
  - rewrite elem_of_insert_key, IH. split.
    + intros [->|(r' & Hr' & Hk)]; [exists r; split; [left|done]|].
      exists r'. split; [now right|done].
    + intros (r' & Hr' & Hk). apply elem_of_cons in Hr' as [->|Hr'].
      * now left.
      * right. eauto.
Qed.

Lemma sorted_lt_NoDup (ks : list Z) : StronglySorted Z.lt ks -> NoDup ks.
Proof.
  induction 1 as [|k ks Hs IH Hk]; constructor; [|done].
  intros Hin. rewrite Forall_forall in Hk. specialize (Hk k Hin). lia.
Qed.

(** The groups of keys that occur once each and cover the rows are a
    rearrangement of the rows. *)
Lemma groups_partition (joined : list OutRow) :
  forall ks : list Z,
    NoDup ks -> (forall r, r ∈ joined -> o_cell_id r ∈ ks) ->
    concat (map (fun k => List.filter (fun r => o_cell_id r =? k) joined) ks)
      ≡ₚ joined.
Proof.
  induction joined as [|r joined IH]; intros ks Hnd Hcover.
  - simpl. induction ks as [|k ks IHk]; simpl; [done|].
    apply IHk; [now apply NoDup_cons_1_2 in Hnd|]. intros r Hr. inversion Hr.
  - assert (Hk : o_cell_id r ∈ ks) by (apply Hcover; left).
    apply list_elem_of_split in Hk as (ks1 & ks2 & ->).
    apply NoDup_app in Hnd as (Hnd1 & Hnot & Hnd2).
    apply NoDup_cons in Hnd2 as [Hnot2 Hnd2].
    assert (Hother : forall ks', o_cell_id r ∉ ks' ->
              map (fun k => List.filter (fun r0 => o_cell_id r0 =? k) (r :: joined)) ks' =
              map (fun k => List.filter (fun r0 => o_cell_id r0 =? k) joined) ks').
    { intros ks' Hno. apply map_ext_in. intros k Hk. simpl.
      destruct (o_cell_id r =? k) eqn:Heq; [|done].
      apply Z.eqb_eq in Heq as <-. now apply list_elem_of_In in Hk. }
    assert (Hhead : List.filter (fun r0 => o_cell_id r0 =? o_cell_id r) (r :: joined) =
                    r :: List.filter (fun r0 => o_cell_id r0 =? o_cell_id r) joined).
    { simpl. now rewrite Z.eqb_refl. }
    rewrite map_app, concat_app, map_cons, concat_cons, Hhead.
    rewrite (Hother ks1), (Hother ks2);
      [|done|intros Hin; apply (Hnot (o_cell_id r)); [done|left]].
    rewrite <- app_comm_cons, <- Permutation_middle. constructor.
    specialize (IH (ks1 ++ o_cell_id r :: ks2)).
    rewrite map_app, concat_app, map_cons, concat_cons in IH. apply IH.
    + apply NoDup_app. split; [done|]. split; [done|]. now constructor.
    + intros r' Hr'. apply Hcover. now right.
Qed.

(** [groupby("cell_id", sort=True)] splits the joined rows into groups: the
    keys ascend strictly, so each cell has one group; a group holds, in
    their order, the rows of its cell and is not empty; and the groups
    together are a rearrangement of the rows, none lost and none twice. *)
Theorem groupby_partitions (joined : list OutRow) :
  let groups := groupby_cell_id joined in
  StronglySorted Z.lt (map fst groups) /\
  (forall k sub, (k, sub) ∈ groups ->
     sub <> [] /\ sub = List.filter (fun r => o_cell_id r =? k) joined /\
     Forall (fun r => o_cell_id r = k) sub) /\
  (forall r, r ∈ joined -> exists sub, (o_cell_id r, sub) ∈ groups /\ r ∈ sub) /\
  concat (map snd groups) ≡ₚ joined.
Proof.
  unfold groupby_cell_id. simpl.
  assert (Hfst : map fst (map (fun k => (k, List.filter (fun r => o_cell_id r =? k) joined))
                              (group_keys joined)) = group_keys joined).
  { rewrite map_map. simpl. apply map_id. }
  assert (Hsnd : map snd (map (fun k => (k, List.filter (fun r => o_cell_id r =? k) joined))
                              (group_keys joined)) =
                 map (fun k => List.filter (fun r => o_cell_id r =? k) joined)
                     (group_keys joined)).
  { now rewrite map_map. }
  rewrite Hfst, Hsnd. split; [apply group_keys_sorted|]. split; [|split].
  - intros k sub Hin. apply list_elem_of_fmap in Hin as (k' & [= -> ->] & Hk).
    apply elem_of_group_keys in Hk as (r & Hr & Hrk).
    split; [|split; [done|]].
    + intros Hnil.
      assert (Hrin : In r (List.filter (fun r0 => o_cell_id r0 =? k') joined)).
      { apply filter_In. split; [now apply list_elem_of_In|]. now apply Z.eqb_eq. }
      rewrite Hnil in Hrin. inversion Hrin.
    + apply Forall_forall. intros r' Hr'. apply list_elem_of_In, filter_In in Hr'.
      now apply Z.eqb_eq.
  - intros r Hr. exists (List.filter (fun r0 => o_cell_id r0 =? o_cell_id r) joined).
    split.
    + apply list_elem_of_fmap. exists (o_cell_id r). split; [done|].
      apply elem_of_group_keys. eauto.
    + apply list_elem_of_In, filter_In. split; [now apply list_elem_of_In|].
      apply Z.eqb_refl.
  - apply groups_partition.
    + apply sorted_lt_NoDup, group_keys_sorted.
    + intros r Hr. apply elem_of_group_keys. eauto.
Qed.

(** *** Directories *)

Lemma mkdir_from_lookup (rest : list string) :
  forall (base : list string) (fs fs' : gmap (list string) Node),
    mkdir_from base rest fs = Ok fs' ->
    forall q, fs' !! q = fs !! q \/ (fs !! q = None /\ fs' !! q = Some Dir).
Proof.
  induction rest as [|d rest IH]; intros base fs fs' Hmk q; simpl in Hmk.
  - injection Hmk as <-. now left.
  - destruct (fs !! (base ++ [d])) as [[|ls]|] eqn:Hp; [|discriminate|].
    + rewrite insert_id in Hmk by done. eapply IH. exact Hmk.
    + destruct (IH _ _ _ Hmk q) as [Heq|[Hnone Hdir]].
      * destruct (decide (base ++ [d] = q)) as [<-|Hne].
        -- rewrite lookup_insert_eq in Heq. right. done.
        -- rewrite lookup_insert_ne in Heq by done. now left.
      * destruct (decide (base ++ [d] = q)) as [<-|Hne].
        -- rewrite lookup_insert_eq in Hnone. discriminate.
        -- rewrite lookup_insert_ne in Hnone by done. now right.
Qed.

Lemma mkdir_from_dirs (rest : list string) :
  forall (base : list string) (fs fs' : gmap (list string) Node),
    mkdir_from base rest fs = Ok fs' ->
    forall n, (1 <= n <= length rest)%nat -> fs' !! (base ++ take n rest) = Some Dir.
Proof.
  induction rest as [|d rest IH]; intros base fs fs' Hmk n Hn; simpl in Hn; [lia|].
  simpl in Hmk.
  assert (Hmk' : mkdir_from (base ++ [d]) rest (<[base ++ [d] := Dir]> fs) = Ok fs').
  { destruct (fs !! (base ++ [d])) as [[|ls]|]; try discriminate; done. }
  destruct n as [|n]; [lia|]. simpl.
  destruct n as [|n].
  - rewrite take_0.
    destruct (mkdir_from_lookup _ _ _ _ Hmk' (base ++ [d])) as [Heq|[Hnone _]].
    + rewrite Heq. apply lookup_insert_eq.
    + rewrite lookup_insert_eq in Hnone. discriminate.
  - replace (base ++ d :: take (S n) rest) with ((base ++ [d]) ++ take (S n) rest)
      by (now rewrite <- app_assoc).
    eapply IH; [exact Hmk'|lia].
Qed.

Lemma mkdir_from_again (rest : list string) :
  forall (base : list string) (fs : gmap (list string) Node),
    (forall n, (1 <= n <= length rest)%nat -> fs !! (base ++ take n rest) = Some Dir) ->
    mkdir_from base rest fs = Ok fs.
Proof.
  induction rest as [|d rest IH]; intros base fs Hdirs; simpl; [done|].
  assert (Hd : fs !! (base ++ [d]) = Some Dir).
  { specialize (Hdirs 1%nat). simpl in Hdirs. rewrite take_0 in Hdirs.
    apply Hdirs. lia. }
  rewrite Hd, insert_id by done. apply IH. intros n Hn.
  specialize (Hdirs (S n)). simpl in Hdirs. rewrite <- app_assoc. simpl.
  apply Hdirs. lia.
Qed.

Lemma mkdir_from_Ok_iff (rest : list string) :
  forall (base : list string) (fs : gmap (list string) Node),
    (exists fs', mkdir_from base rest fs = Ok fs') <->
    (forall n ls, (1 <= n <= length rest)%nat ->
                  fs !! (base ++ take n rest) <> Some (File ls)).
Proof.
  induction rest as [|d rest IH]; intros base fs; simpl.
  - split; [intros _ n ls Hn; lia|eauto].
  - assert (Hshift : forall n, (base ++ [d]) ++ take n rest = base ++ take (S n) (d :: rest)).
    { intros n. now rewrite <- app_assoc. }
    assert (Hfresh : forall n, (1 <= n)%nat ->
              <[base ++ [d] := Dir]> fs !! ((base ++ [d]) ++ take n rest) =
              fs !! ((base ++ [d]) ++ take n rest) \/ (n > length rest)%nat).
    { intros n Hn. destruct (decide (n <= length rest)%nat) as [Hle|]; [left|right; lia].
      apply lookup_insert_ne. intros Heq.
      apply (f_equal length) in Heq. rewrite !length_app, length_take in Heq.
      simpl in Heq. lia. }
    split.
    + intros (fs' & Hmk) n ls Hn.
      destruct (fs !! (base ++ [d])) as [[|ls0]|] eqn:Hp; [|discriminate|].
      * destruct n as [|[|n]]; [lia|simpl; rewrite take_0; congruence|].
        rewrite <- Hshift. destruct (Hfresh (S n)) as [<-|]; [lia| |lia].
        apply (proj1 (IH _ _) (ex_intro _ fs' Hmk)). simpl in Hn. lia.
      * destruct n as [|[|n]]; [lia|simpl; rewrite take_0; congruence|].
        rewrite <- Hshift. destruct (Hfresh (S n)) as [<-|]; [lia| |lia].
        apply (proj1 (IH _ _) (ex_intro _ fs' Hmk)). simpl in Hn. lia.
    + intros Hno.
      assert (Hp : forall ls, fs !! (base ++ [d]) <> Some (File ls)).
      { intros ls. specialize (Hno 1%nat ls). simpl in Hno. rewrite take_0 in Hno.
        apply Hno. lia. }
      assert (Hrest : exists fs', mkdir_from (base ++ [d]) rest
                                    (<[base ++ [d] := Dir]> fs) = Ok fs').
      { apply IH. intros n ls Hn. destruct (Hfresh n) as [->|]; [lia| |lia].
        rewrite Hshift. apply Hno. simpl. lia. }
      destruct (fs !! (base ++ [d])) as [[|ls0]|] eqn:Hq; [done| |done].
      now destruct (Hp ls0).
Qed.

(** [mkdir(parents=True, exist_ok=True)] succeeds exactly when no component
    on the way to the directory is a regular file. It then leaves every
    component a directory, changes nothing else (a path is as before, or
    was absent and is now a directory), and running it again changes
    nothing. *)
Theorem mkdir_parents_exist_ok (p : list string) (fs : gmap (list string) Node) :
  ((exists fs', mkdir_parents p fs = Ok fs') <->
   (forall n ls, (1 <= n <= length p)%nat -> fs !! take n p <> Some (File ls))) /\
  (forall fs', mkdir_parents p fs = Ok fs' ->
     (forall n, (1 <= n <= length p)%nat -> fs' !! take n p = Some Dir) /\
     (forall q, fs' !! q = fs !! q \/ (fs !! q = None /\ fs' !! q = Some Dir)) /\
     mkdir_parents p fs' = Ok fs').
Proof.
  unfold mkdir_parents. split; [apply (mkdir_from_Ok_iff p [] fs)|].
  intros fs' Hmk.
  pose proof (mkdir_from_dirs p [] fs fs' Hmk) as Hdirs.
  split; [exact Hdirs|]. split; [exact (mkdir_from_lookup p [] fs fs' Hmk)|].
  now apply mkdir_from_again.
Qed.

(** *** Runs only add *)

(** A file system that extends another: files have grown by data rows at
    the end, and directories are still there. *)
Lemma append_block_extends (cols : list string) (block : list OutRow)
    (p : list string) (fs fs' : gmap (list string) Node) :
  append_block cols block p fs = Ok fs' -> fs_extends fs fs'.
Proof.
  intros Happ. apply CsvProps.append_block_Ok in Happ as (before & -> & Hbefore).
  split.
  - intros q old Hq. destruct (decide (p = q)) as [<-|Hne].
    + destruct Hbefore as [Hold|[Hnone _]]; [|congruence].
      rewrite Hold in Hq. injection Hq as <-. exists block.
      apply lookup_insert_eq.
    + exists []. rewrite lookup_insert_ne by done. simpl. now rewrite app_nil_r.
  - intros q Hq. destruct (decide (p = q)) as [<-|Hne].
    + destruct Hbefore as [Hold|[Hnone _]]; congruence.
    + now rewrite lookup_insert_ne.
Qed.

Lemma mkdir_parents_extends (p : list string) (fs fs' : gmap (list string) Node) :
  mkdir_parents p fs = Ok fs' -> fs_extends fs fs'.
Proof.
  intros Hmk. pose proof (mkdir_from_lookup p [] fs fs' Hmk) as Hlook. split.
  - intros q old Hq. exists []. simpl. rewrite app_nil_r.
    destruct (Hlook q) as [->|[Hnone _]]; congruence.
  - intros q Hq. destruct (Hlook q) as [->|[Hnone _]]; congruence.
Qed.

Lemma fs_extends_refl (fs : gmap (list string) Node) : fs_extends fs fs.
Proof.
  split; [|done]. intros q old Hq. exists []. simpl. now rewrite app_nil_r.
Qed.

Lemma fs_extends_trans (fs1 fs2 fs3 : gmap (list string) Node) :
  fs_extends fs1 fs2 -> fs_extends fs2 fs3 -> fs_extends fs1 fs3.
Proof.
  intros [Hf12 Hd12] [Hf23 Hd23]. split; [|auto].
  intros q old Hq. destruct (Hf12 q old Hq) as (more1 & H2).
  destruct (Hf23 q _ H2) as (more2 & H3). exists (more1 ++ more2).
  now rewrite map_app, app_assoc.
Qed.

Lemma write_cell_extends (args : Args) (time_col : string)
    (fs fs' : gmap (list string) Node) (grp : Z * list OutRow) :
  write_cell args time_col fs grp = Ok fs' -> fs_extends fs fs'.
Proof.
  destruct grp as [cid sub]. unfold write_cell. intros Hw.
  apply bind_Ok in Hw as (fs1 & Hmk & Happ).
  eapply fs_extends_trans; [eapply mkdir_parents_extends; exact Hmk|].
  eapply append_block_extends. exact Happ.
Qed.

Section Runs.
Context {G : Type} `{Geometry G}.

Lemma main_extends (args : Args) (grid : Grid G) (df : DataFrame)
    (fs fs' : gmap (list string) Node) :
  main args grid df fs = Ok fs' -> fs_extends fs fs'.
Proof.
  unfold main.
  destruct (negb (bool_decide _)); [discriminate|].
  destruct (negb (forallb _ _)); [discriminate|].
  intros Hrun. apply bind_Ok in Hrun as (time_col & _ & Hrun).
  destruct (joined_rows args grid (records df)) as [|r rows].
  - injection Hrun as <-. apply fs_extends_refl.
  - apply bind_Ok in Hrun as (fs0 & Hmk & Hloop).
    refine (for_each_preserves (fs_extends fs) _ _ _ _ _
              (mkdir_parents_extends _ _ _ Hmk) Hloop).
    intros s grp s' Hs Hw. eapply fs_extends_trans; [exact Hs|].
    eapply write_cell_extends. exact Hw.
Qed.

(** Runs only add. After any number of successful runs every file that
    existed before still exists and holds its old content followed by data
    rows only (no second header), and every directory is still a
    directory: nothing is deleted, truncated or rewritten. *)
Theorem runs_only_append (runs : list (Args * Grid G * DataFrame))
    (fs fs' : gmap (list string) Node) :
  run_all runs fs = Ok fs' ->
  (forall p old, fs !! p = Some (File old) ->
     exists more, fs' !! p = Some (File (old ++ map DataLine more))) /\
  (forall p, fs !! p = Some Dir -> fs' !! p = Some Dir).
Proof.
  revert fs. induction runs as [|[[args grid] df] runs IH]; intros fs Hrun;
    simpl in Hrun.
  - injection Hrun as <-. apply fs_extends_refl.
  - apply bind_Ok in Hrun as (fs1 & Hfirst & Hrest).
    apply (fs_extends_trans fs fs1 fs'); [eapply main_extends; exact Hfirst|].
    apply IH. exact Hrest.
Qed.

End Runs.

Lemma runs_only_append_witness :
  exists more,
    Demo.fs_after_more !! out_csv_path Demo.args0 0 =
    Some (File ((HeaderLine (out_cols Demo.args0 "timestamp")
                 :: map DataLine (sort_values Demo.group0))
                ++ map DataLine more)).
Proof.
  destruct (@runs_only_append RectGeom.rect _
              [(Demo.args0, Demo.grid, Demo.df); (Demo.args1, Demo.grid, Demo.df)]
              Demo.fs_after_group Demo.fs_after_more) as [Hfiles _].
  - apply unwrap_is_ok. vm_compute. reflexivity.
  - apply Hfiles. vm_compute. reflexivity.
Defined.

(** *** What a run writes *)





Section RunEffect.
Context {G : Type} `{Geometry G}.


End RunEffect.


End CsvExtra.
